(** * HashyStepTable: an open-addressing hash table with a key-dependent step

    A shallow embedding of [hashy_step_table.py] (class [HashyStepTable]) and
    the properties of its probing, deletion and resizing.

    Python integers are [Z]; keys are strings (the class says "K: in most
    cases should be string", and both hash functions iterate over the
    characters of the key); a raised exception is an [Err] result, and the
    methods that assign attributes return the table they leave behind next to
    their result, also when they raise. *)

From Stdlib Require Import ZArith Lia List String Ascii Bool.
From stdpp Require Import base list.

Local Open Scope string_scope.
Local Open Scope Z_scope.

(** ** Exceptions and results *)

Inductive exn : Type :=
| KeyError
| FullError
| ZeroDivisionError
| IndexError
| TypeError
| ValueError
| OutOfFuel. (* the model's recursion bound, never a Python exception *)

Inductive result (A : Type) : Type :=
| Ok (a : A)
| Err (e : exn).

Arguments Ok {A} a.
Arguments Err {A} e.

Definition bind {A B : Type} (r : result A) (f : A -> result B) : result B :=
  match r with
  | Ok a => f a
  | Err e => Err e
  end.

Notation "'let*' x ':=' e 'in' k" := (bind e (fun x => k))
  (at level 10, x name, e at level 100, k at level 200).

(** Python's [a % b]: for [b <> 0] it is the floored remainder, which is
    [Z.modulo]; for [b = 0] it raises. *)
Definition pymod (a b : Z) : result Z :=
  if b =? 0 then Err ZeroDivisionError else Ok (a mod b).

(** ** Hash Engine *)

Definition HASH_BASE : Z := 31.

(** [ord(char)]: the code of the character. No proof below depends on its
    range. *)
Definition ord (c : ascii) : Z := Z.of_nat (nat_of_ascii c).

(** The loop of [hash]: [value] and [a] are the loop-carried variables. *)
Fixpoint hash_loop (table_size : Z) (key : string) (value a : Z) : result Z :=
  match key with
  | EmptyString => Ok value
  | String char key' =>
      let* value' := pymod (ord char + a * value) table_size in
      let* a' := pymod (a * HASH_BASE) (table_size - 1) in
      hash_loop table_size key' value' a'
  end.

Definition hash_at (table_size : Z) (key : string) : result Z :=
  hash_loop table_size key 0 31415.

(** The loop of [hash2]. *)
Fixpoint hash2_loop (table_size : Z) (key : string) (value : Z) : result Z :=
  match key with
  | EmptyString => Ok value
  | String char key' =>
      let* value' := pymod (value * HASH_BASE + ord char) (table_size - 1) in
      hash2_loop table_size key' value'
  end.

Definition hash2_at (table_size : Z) (key : string) : result Z :=
  let* value := hash2_loop table_size key 0 in
  Ok (value + 1).

(** The secondary hash as the specification words it: the polynomial
    accumulation of the key (not reduced), taken modulo [m - 1], plus one. *)
Fixpoint poly_acc (key : string) (value : Z) : Z :=
  match key with
  | EmptyString => value
  | String char key' => poly_acc key' (value * HASH_BASE + ord char)
  end.

Definition secondary_hash (key : string) : Z := poly_acc key 0.

Definition step_spec (m : Z) (key : string) : Z :=
  secondary_hash key mod (m - 1) + 1.

(** ** Data model *)

(** The marker [self.deleted]. *)
Definition deleted : string := "<DELETED>".

Section Table.

Variable V : Type.

(** What a position of the backing array holds: [None], the marker
    [self.deleted] (the string ["<DELETED>"]), or a tuple [(key, value)]. *)
Inductive item : Type :=
| PyNone
| PyDeleted
| PyTuple (k : string) (v : V).

(** What subscripting an item gives: a key or a piece of the marker (both
    strings), or a value. *)
Inductive pyobj : Type :=
| Str (s : string)
| Val (v : V).

Record table : Type := mkTable {
  TABLE_SIZES : list Z;
  size_index : nat;
  array : list item;
  count : Z
}.

Definition set_size_index (t : table) (i : nat) : table :=
  mkTable (TABLE_SIZES t) i (array t) (count t).

Definition set_array (t : table) (a : list item) : table :=
  mkTable (TABLE_SIZES t) (size_index t) a (count t).

Definition set_count (t : table) (c : Z) : table :=
  mkTable (TABLE_SIZES t) (size_index t) (array t) c.

(** Modelled from the spec: [ArrayR] of [data_structures.referential_array],
    the fixed-length backing storage, every position [None] at creation. The
    constructor's sizes are positive integers. *)
Definition ArrayR (length : Z) : list item := replicate (Z.to_nat length) PyNone.

(** [self.array[position]]; the positions the table computes are reduced
    modulo the table size, outside the array the access raises. *)
Definition array_get (a : list item) (position : Z) : result item :=
  if position <? 0 then Err IndexError
  else match a !! Z.to_nat position with
       | Some it => Ok it
       | None => Err IndexError
       end.

(** [s[i]] for a string and [i >= 0]: the one-character string at [i]. *)
Definition str_index (s : string) (i : nat) : result pyobj :=
  match String.get i s with
  | Some c => Ok (Str (String c EmptyString))
  | None => Err IndexError
  end.

(** [item[i]] for [i] in 0, 1. *)
Definition item_index (it : item) (i : nat) : result pyobj :=
  match it with
  | PyNone => Err TypeError
  | PyDeleted => str_index deleted i
  | PyTuple k v =>
      match i with
      | O => Ok (Str k)
      | S O => Ok (Val v)
      | _ => Err IndexError
      end
  end.

Definition is_none (it : item) : bool :=
  match it with PyNone => true | _ => false end.

Definition DEFAULT_TABLE_SIZES : list Z :=
  [5; 13; 29; 53; 97; 193; 389; 769; 1543; 3079; 6151; 12289; 24593; 49157;
   98317; 196613; 393241; 786433; 1572869].

(** [__init__] *)
Definition init (sizes : option (list Z)) : result table :=
  let table_sizes := match sizes with Some s => s | None => DEFAULT_TABLE_SIZES end in
  match table_sizes !! 0%nat with
  | Some m => Ok (mkTable table_sizes 0 (ArrayR m) 0)
  | None => Err IndexError
  end.

Definition table_size (t : table) : Z := Z.of_nat (length (array t)).

Definition hash (t : table) (key : string) : result Z := hash_at (table_size t) key.

Definition hash2 (t : table) (key : string) : result Z := hash2_at (table_size t) key.

(** [__len__] *)
Definition len (t : table) : Z := count t.

(** ** Probe Sequence Controller *)

(** The [for _ in range(self.table_size)] loop of [_hashy_probe]: [n]
    iterations remain; falling out of the loop raises [FullError], whatever
    [is_insert] is. *)
Fixpoint probe_loop (n : nat) (a : list item) (key : string) (is_insert : bool)
    (step position : Z) : result Z :=
  match n with
  | O => Err FullError
  | S n' =>
      let* it := array_get a position in
      match it with
      | PyNone => if is_insert then Ok position else Err KeyError
      | PyDeleted =>
          if is_insert then Ok position
          else probe_loop n' a key is_insert step ((position + step) mod Z.of_nat (length a))
      | PyTuple k _ =>
          if String.eqb k key then Ok position
          else probe_loop n' a key is_insert step ((position + step) mod Z.of_nat (length a))
      end
  end.

(** [_hashy_probe] *)
Definition hashy_probe (t : table) (key : string) (is_insert : bool) : result Z :=
  let* position := hash t key in
  let* step := hash2 t key in
  probe_loop (length (array t)) (array t) key is_insert step position.

(** [keys] and [values]: the scan tests [is not None] only. *)
Fixpoint scan (i : nat) (a : list item) : result (list pyobj) :=
  match a with
  | [] => Ok []
  | it :: rest =>
      if is_none it then scan i rest
      else let* x := item_index it i in let* res := scan i rest in Ok (x :: res)
  end.

Definition keys (t : table) : result (list pyobj) := scan 0 (array t).

Definition values (t : table) : result (list pyobj) := scan 1 (array t).

(** [__getitem__] *)
Definition getitem (t : table) (key : string) : result pyobj :=
  let* position := hashy_probe t key false in
  let* it := array_get (array t) position in
  item_index it 1.

(** [__contains__]: only [KeyError] is caught. *)
Definition contains (t : table) (key : string) : result bool :=
  match getitem t key with
  | Ok _ => Ok true
  | Err KeyError => Ok false
  | Err e => Err e
  end.

(** The state-changing methods return their result and the table as they
    leave it. *)
Definition outcome : Type := result unit * table.

(** The builtin [len(self)]: it calls [__len__], and raises [ValueError]
    when that returns a negative number. *)
Definition builtin_len (t : table) : result Z :=
  if len t <? 0 then Err ValueError else Ok (len t).

(** [__setitem__], with the method it calls for resizing as a parameter.
    The load test calls the builtin [len(self)] after the entry is written.
    [len(self) > self.table_size * 2 / 3] compares an integer with the
    double nearest to [2 * table_size / 3], which for table sizes below 2^52
    decides [3 * count > 2 * table_size]. *)
Definition setitem_with (rehash : table -> outcome) (key : string) (data : V)
    (t : table) : outcome :=
  match hashy_probe t key true with
  | Err e => (Err e, t)
  | Ok position =>
      match array_get (array t) position with
      | Err e => (Err e, t)
      | Ok it =>
          let t1 := if is_none it then set_count t (count t + 1) else t in
          let t2 := set_array t1 (<[Z.to_nat position := PyTuple key data]> (array t1)) in
          match builtin_len t2 with
          | Err e => (Err e, t2)
          | Ok n => if 2 * table_size t2 <? 3 * n then rehash t2 else (Ok tt, t2)
          end
      end
  end.

(** The [for item in old_array] loop of [_rehash]; an exception leaves the
    loop with the table as it is then. *)
Fixpoint reinsert (set : string -> V -> table -> outcome) (old_array : list item)
    (t : table) : outcome :=
  match old_array with
  | [] => (Ok tt, t)
  | PyTuple k v :: rest =>
      match set k v t with
      | (Ok _, t') => reinsert set rest t'
      | (Err e, t') => (Err e, t')
      end
  | _ :: rest => reinsert set rest t
  end.

(** [_rehash]. It calls [__setitem__], which may call [_rehash] again for the
    next size; [fuel] bounds the depth of that nesting. *)
Fixpoint rehash_fuel (fuel : nat) (t : table) : outcome :=
  match fuel with
  | O => (Err OutOfFuel, t)
  | S fuel' =>
      let old_array := array t in
      let t1 := set_size_index t (S (size_index t)) in
      if (length (TABLE_SIZES t1) <=? size_index t1)%nat then (Err FullError, t1)
      else
        match TABLE_SIZES t1 !! size_index t1 with
        | None => (Err IndexError, t1)
        | Some m =>
            let t2 := set_count (set_array t1 (ArrayR m)) 0 in
            reinsert (setitem_with (rehash_fuel fuel')) old_array t2
        end
  end.

(** Every nested [_rehash] moves [size_index] one further, and raises once
    it leaves [TABLE_SIZES]: this much fuel is never used up
    (see [rehash_fuel_enough]). *)
Definition fuel_of (t : table) : nat := S (length (TABLE_SIZES t) - size_index t).

Definition rehash (t : table) : outcome := rehash_fuel (fuel_of t) t.

Definition setitem (key : string) (data : V) (t : table) : outcome :=
  setitem_with rehash key data t.

(** [__delitem__] *)
Definition delitem (key : string) (t : table) : outcome :=
  match hashy_probe t key false with
  | Err e => (Err e, t)
  | Ok position =>
      let t1 := set_array t (<[Z.to_nat position := PyDeleted]> (array t)) in
      (Ok tt, set_count t1 (count t1 - 1))
  end.

Definition is_empty (t : table) : bool := count t =? 0.

Definition is_full (t : table) : bool := count t =? table_size t.

(** The number of positions that hold a [(key, value)] tuple. *)
Fixpoint occupied (a : list item) : Z :=
  match a with
  | [] => 0
  | PyTuple _ _ :: rest => 1 + occupied rest
  | _ :: rest => occupied rest
  end.

End Table.

Arguments PyNone {V}.
Arguments PyDeleted {V}.
Arguments PyTuple {V} k v.
Arguments Str {V} s.
Arguments Val {V} v.
Arguments mkTable {V} TABLE_SIZES size_index array count.
Arguments TABLE_SIZES {V} t.
Arguments size_index {V} t.
Arguments array {V} t.
Arguments count {V} t.
Arguments set_size_index {V} t i.
Arguments set_array {V} t a.
Arguments set_count {V} t c.
Arguments ArrayR {V} length.
Arguments array_get {V} a position.
Arguments str_index {V} s i.
Arguments item_index {V} it i.
Arguments is_none {V} it.
Arguments init {V} sizes.
Arguments table_size {V} t.
Arguments hash {V} t key.
Arguments hash2 {V} t key.
Arguments len {V} t.
Arguments builtin_len {V} t.
Arguments probe_loop {V} n a key is_insert step position.
Arguments hashy_probe {V} t key is_insert.
Arguments scan {V} i a.
Arguments keys {V} t.
Arguments values {V} t.
Arguments getitem {V} t key.
Arguments contains {V} t key.
Arguments setitem_with {V} rehash key data t.
Arguments reinsert {V} set old_array t.
Arguments rehash_fuel {V} fuel t.
Arguments fuel_of {V} t.
Arguments rehash {V} t.
Arguments setitem {V} key data t.
Arguments delitem {V} key t.
Arguments is_empty {V} t.
Arguments is_full {V} t.
Arguments occupied {V} a.

(** A sequence of state-changing calls, stopping at the first that raises. *)
Definition run {V : Type} (ops : list (table V -> outcome V)) (t : table V) : outcome V :=
  fold_left (fun (o : outcome V) op => match o with (Ok _, t') => op t' | _ => o end)
    ops (Ok tt, t).

(** * Vocabulary of the properties *)

Section Vocabulary.

Context {V : Type}.
Implicit Types (a : list (item V)) (it x : item V) (key k : string).
Implicit Types (position step p q : Z) (t : table V) (v data : V).
Implicit Types (rh : table V -> outcome V) (r : result unit).

(** The item stops a probe walk for [key]. *)
Definition probe_stop key (is_insert : bool) it : Prop :=
  match it with
  | PyTuple k _ => k = key
  | _ => is_insert = true
  end.

Definition holds_key key it : Prop :=
  match it with
  | PyTuple k _ => k = key
  | _ => False
  end.

Definition no_deleted a : Prop := forall i : nat, a !! i <> Some PyDeleted.

(** [_hashy_probe] reads the table through its array only. *)
Definition probe_array a key (is_insert : bool) : result Z :=
  let* position := hash_at (Z.of_nat (length a)) key in
  let* step := hash2_at (Z.of_nat (length a)) key in
  probe_loop (length a) a key is_insert step position.

(** The table [__setitem__] has written when it tests the load. *)
Definition written t position it key data : table V :=
  mkTable (TABLE_SIZES t) (size_index t)
    (<[Z.to_nat position := PyTuple key data]> (array t))
    (if is_none it then count t + 1 else count t).

Definition load_ok t : Prop := 3 * len t <= 2 * table_size t.

(** Every tuple is where the lookup walk for its key stops. *)
Definition findable a : Prop :=
  forall q k v, array_get a q = Ok (PyTuple k v) -> probe_array a k false = Ok q.

(** The shape of an array that was filled by insertions only. *)
Definition rebuilt a : Prop := no_deleted a /\ findable a.

(** The value of the last tuple with [key], in position order: the one
    the loop of [_rehash] inserts last. *)
Fixpoint last_value a key : option V :=
  match a with
  | [] => None
  | it :: rest =>
      match last_value rest key with
      | Some v => Some v
      | None =>
          match it with
          | PyTuple k v => if String.eqb k key then Some v else None
          | _ => None
          end
      end
  end.

Definition set_spec (set : string -> V -> table V -> outcome V) : Prop :=
  forall key data t t',
  rebuilt (array t) -> set key data t = (Ok tt, t') ->
  rebuilt (array t') /\
  getitem t' key = Ok (Val data) /\
  forall k v, k <> key -> getitem t k = Ok (Val v) -> getitem t' k = Ok (Val v).

Definition rehash_spec rh : Prop :=
  forall t t',
  rh t = (Ok tt, t') ->
  rebuilt (array t') /\
  forall k v, last_value (array t) k = Some v -> getitem t' k = Ok (Val v).

(** Walking from [position] by [step], [target] is met within [n] positions
    and before any [None]. *)
Fixpoint clear_path (n : nat) a step position (target : Z) : Prop :=
  match n with
  | O => False
  | S n' =>
      position = target \/
      exists it, array_get a position = Ok it /\ it <> PyNone /\
                 clear_path n' a step ((position + step) mod Z.of_nat (length a)) target
  end.

(** Every tuple lies on the probe walk of its key, behind no [None]:
    positions are never emptied again, only a resize starts afresh. *)
Definition chained a : Prop :=
  forall p k v, array_get a p = Ok (PyTuple k v) ->
  exists position step,
    hash_at (Z.of_nat (length a)) k = Ok position /\
    hash2_at (Z.of_nat (length a)) k = Ok step /\
    clear_path (length a) a step position p.

(** The load is within bounds, or the size index has left [TABLE_SIZES]
    (a resize has failed for want of a larger size, and every later one
    will). *)
Definition load_inv t : Prop :=
  load_ok t \/ (length (TABLE_SIZES t) <= size_index t)%nat.

Definition state_inv t : Prop := chained (array t) /\ load_inv t.

(** What every outcome of a state-changing method satisfies. *)
Definition good t (o : outcome V) : Prop :=
  fst o <> Err OutOfFuel /\
  state_inv (snd o) /\
  TABLE_SIZES (snd o) = TABLE_SIZES t /\
  (size_index t <= size_index (snd o))%nat.

(** The tables a client can build: a fresh one, over positive sizes, and
    what [__setitem__] and [__delitem__] leave behind, whether they return
    or raise. *)
Inductive reachable : table V -> Prop :=
| reach_init sizes t :
    Forall (fun m => 0 < m) (match sizes with Some s => s | None => DEFAULT_TABLE_SIZES end) ->
    init sizes = Ok t -> reachable t
| reach_setitem key data t : reachable t -> reachable (snd (setitem key data t))
| reach_delitem key t : reachable t -> reachable (snd (delitem key t)).

(** The item lets a probe walk for [key] go on to the next position. *)
Definition walks_past key (is_insert : bool) it : Prop :=
  match it with
  | PyNone => False
  | PyDeleted => is_insert = false
  | PyTuple k _ => k <> key
  end.

(** No marker in the array, and the count is the number of tuples. *)
Definition counted t : Prop :=
  no_deleted (array t) /\ count t = occupied (array t).

(** The tuples of the array, in position order. *)
Fixpoint entries a : list (string * V) :=
  match a with
  | [] => []
  | PyTuple k v :: rest => (k, v) :: entries rest
  | _ :: rest => entries rest
  end.

(** The tables built from a fresh one by [__setitem__] alone. *)
Inductive built_by_sets : table V -> Prop :=
| built_init sizes t : init sizes = Ok t -> built_by_sets t
| built_setitem key data t : built_by_sets t -> built_by_sets (snd (setitem key data t)).

End Vocabulary.

(** [HashyStepTable()], [HashyStepTable([5, 13])] and [HashyStepTable([5])],
    with integer values. *)
Definition table_default : table Z := mkTable DEFAULT_TABLE_SIZES 0 (ArrayR 5) 0.

Definition table_5_13 : table Z := mkTable [5; 13] 0 (ArrayR 5) 0.

Definition table_5 : table Z := mkTable [5] 0 (ArrayR 5) 0.

(** [HashyStepTable([1, 5])]. *)
Definition table_1_5 : table Z := mkTable [1; 5] 0 (ArrayR 1) 0.

(** [HashyStepTable([5, 3])]. *)
Definition table_5_3 : table Z := mkTable [5; 3] 0 (ArrayR 5) 0.

Definition set_delete_twice : list (table Z -> outcome Z) :=
  [setitem "a" 1; delitem "a"; setitem "a" 2; delitem "a"].

(** The table after the calls, whatever they returned. *)
Definition after (ops : list (table Z -> outcome Z)) (t : table Z) : table Z :=
  snd (run ops t).

Definition abc : list (table Z -> outcome Z) :=
  [setitem "a" 1; setitem "b" 2; setitem "c" 3].

Definition fill_with_markers : list (table Z -> outcome Z) :=
  [setitem "a" 1; delitem "a"; setitem "b" 2; delitem "b"; setitem "c" 3; delitem "c";
   setitem "d" 4; delitem "d"; setitem "e" 5; delitem "e"].

(** One iteration of the loop, by the item under the position. *)
Ltac probe_step H it Hit :=
  simpl in H |- *;
  match type of H with
  | context [array_get ?a ?p] =>
      destruct (array_get a p) as [it | ?] eqn:Hit; simpl in H; [| discriminate]
  end.

(** * Properties *)

(** ** Hash Engine *)

Section HashEngine.

Lemma pymod_ok (a b : Z) : b <> 0 -> pymod a b = Ok (a mod b).
Proof.
  intros Hb. unfold pymod. destruct (Z.eqb_spec b 0); [contradiction | reflexivity].
Qed.

(** Reducing the accumulator before a character is absorbed does not change
    the residue of the accumulation. *)
Lemma poly_acc_mod (n : Z) (key : string) :
  forall value, poly_acc key (value mod n) mod n = poly_acc key value mod n.
Proof.
  induction key as [| char key' IH]; intros value; simpl.
  - apply Zmod_mod.
  - rewrite <- (IH (value mod n * HASH_BASE + ord char)).
    rewrite <- (IH (value * HASH_BASE + ord char)).
    do 2 f_equal.
    rewrite <- (Zplus_mod_idemp_l (value mod n * HASH_BASE)).
    rewrite Zmult_mod_idemp_l.
    apply Zplus_mod_idemp_l.
Qed.

(** The loop of [hash2], started from a reduced accumulator, computes the
    residue of the unreduced accumulation. *)
Lemma hash2_loop_poly (m : Z) (key : string) :
  2 <= m ->
  forall value, 0 <= value < m - 1 ->
  hash2_loop m key value = Ok (poly_acc key value mod (m - 1)).
Proof.
  intros Hm. induction key as [| char key' IH]; intros value Hv; simpl.
  - now rewrite Z.mod_small.
  - rewrite pymod_ok by lia. simpl.
    rewrite IH by (apply Z.mod_pos_bound; lia).
    now rewrite poly_acc_mod.
Qed.

Lemma hash2_at_spec (m : Z) (key : string) :
  2 <= m -> hash2_at m key = Ok (step_spec m key).
Proof.
  intros Hm. unfold hash2_at, step_spec, secondary_hash.
  rewrite hash2_loop_poly by lia. reflexivity.
Qed.

Lemma step_spec_range (m : Z) (key : string) :
  2 <= m -> 1 <= step_spec m key <= m - 1.
Proof.
  intros Hm. unfold step_spec.
  pose proof (Z.mod_pos_bound (secondary_hash key) (m - 1)). lia.
Qed.

(** A step in [1, m-1] moves every position of [0, m) to another one. *)
Lemma probe_advances (m step position : Z) :
  1 <= step <= m - 1 -> 0 <= position < m ->
  (position + step) mod m <> position.
Proof.
  intros Hs Hp.
  destruct (Z_lt_ge_dec (position + step) m) as [Hlt | Hge].
  - rewrite Z.mod_small by lia. lia.
  - rewrite <- (Zmod_unique (position + step) m 1 (position + step - m)) by lia. lia.
Qed.

(** The loop of [hash] raises nothing for a table size of at least 2, and
    leaves a position of the table. *)
Lemma hash_loop_range (m : Z) (key : string) :
  2 <= m ->
  forall value a, 0 <= value < m ->
  exists position, hash_loop m key value a = Ok position /\ 0 <= position < m.
Proof.
  intros Hm. induction key as [| char key' IH]; intros value a Hv; simpl.
  - eauto.
  - rewrite !pymod_ok by lia. simpl. apply IH. apply Z.mod_pos_bound. lia.
Qed.

Lemma hash_at_range (m : Z) (key : string) :
  2 <= m -> exists position, hash_at m key = Ok position /\ 0 <= position < m.
Proof. intros Hm. apply hash_loop_range; lia. Qed.

(** C8. For every key and every capacity [m >= 2], [hash2] returns the
    polynomial accumulation of the key modulo [m - 1], plus one; this step
    lies in [1, m-1], so it is never zero, and adding it moves every position
    of the table to a different one. *)
Theorem hash2_step_in_range (m : Z) (key : string) :
  2 <= m ->
  hash2_at m key = Ok (step_spec m key) /\
  1 <= step_spec m key <= m - 1 /\
  step_spec m key <> 0 /\
  forall position, 0 <= position < m ->
    (position + step_spec m key) mod m <> position.
Proof.
  intros Hm. pose proof (step_spec_range m key Hm) as Hr.
  split; [now apply hash2_at_spec |].
  split; [exact Hr |].
  split; [lia |].
  intros position Hp. now apply probe_advances.
Qed.

Lemma hash2_step_in_range_witness :
  2 <= 5 /\
  hash2_at 5 "abc" = Ok (step_spec 5 "abc") /\
  1 <= step_spec 5 "abc" <= 5 - 1 /\
  step_spec 5 "abc" <> 0 /\
  forall position, 0 <= position < 5 ->
    (position + step_spec 5 "abc") mod 5 <> position.
Proof. split; [lia | apply (hash2_step_in_range 5 "abc"); lia]. Defined.

End HashEngine.

(** ** Probe Sequence Controller *)

Lemma bind_Ok {A B : Type} (r : result A) (f : A -> result B) (b : B) :
  bind r f = Ok b -> exists a, r = Ok a /\ f a = Ok b.
Proof. destruct r as [a | e]; simpl; [eauto | discriminate]. Qed.

Section Probe.

Context {V : Type}.
Implicit Types (a : list (item V)) (it x : item V) (key k : string).
Implicit Types (position step p q : Z) (t : table V).

Lemma hashy_probe_array t key is_insert :
  hashy_probe t key is_insert = probe_array (array t) key is_insert.
Proof. reflexivity. Qed.

Lemma array_get_Ok a p it :
  array_get a p = Ok it <-> 0 <= p /\ a !! Z.to_nat p = Some it.
Proof.
  unfold array_get. destruct (Z.ltb_spec p 0) as [Hn | Hn].
  - split; [discriminate | lia].
  - destruct (a !! Z.to_nat p) as [it' |]; split.
    + intros [= ->]. now split.
    + now intros [_ [= ->]].
    + discriminate.
    + now intros [_ ?].
Qed.

Lemma array_get_insert_eq a q it x :
  array_get a q = Ok it -> array_get (<[Z.to_nat q := x]> a) q = Ok x.
Proof.
  intros [Hq Hl]%array_get_Ok. apply array_get_Ok. split; [assumption |].
  apply list_lookup_insert_eq. eapply lookup_lt_Some, Hl.
Qed.

Lemma array_get_insert_ne a p q x :
  0 <= q -> p <> q -> array_get (<[Z.to_nat q := x]> a) p = array_get a p.
Proof.
  intros Hq Hne. unfold array_get. destruct (Z.ltb_spec p 0); [reflexivity |].
  rewrite list_lookup_insert_ne by lia. reflexivity.
Qed.

Lemma array_get_ArrayR (m p : Z) it :
  array_get (ArrayR (V:=V) m) p = Ok it -> it = PyNone.
Proof.
  intros [_ Hl]%array_get_Ok. unfold ArrayR in Hl.
  apply lookup_replicate in Hl. tauto.
Qed.

(** Where a probe walk stops, it stops for a reason. *)
Lemma probe_loop_sound a key is_insert step (n : nat) :
  forall position q,
  probe_loop n a key is_insert step position = Ok q ->
  exists it, array_get a q = Ok it /\ probe_stop key is_insert it.
Proof.
  induction n as [| n IH]; intros position q H; [discriminate |].
  probe_step H it Hit.
  destruct it as [| | k v].
  - destruct is_insert; [| discriminate]. injection H as <-. now exists PyNone.
  - destruct is_insert; [| now eauto]. injection H as <-. now exists PyDeleted.
  - destruct (String.eqb_spec k key) as [-> | Hne]; [| now eauto].
    injection H as <-. now exists (PyTuple key v).
Qed.

Lemma probe_array_sound a key is_insert q :
  probe_array a key is_insert = Ok q ->
  exists it, array_get a q = Ok it /\ probe_stop key is_insert it.
Proof.
  unfold probe_array. intros (position & _ & (step & _ & H)%bind_Ok)%bind_Ok.
  eapply probe_loop_sound, H.
Qed.

(** After [(key, v)] is written where the insert walk stopped, the lookup
    walk stops there too. *)
Lemma probe_loop_insert_lookup a key (v : V) step (n : nat) q :
  forall position,
  probe_loop n a key true step position = Ok q ->
  probe_loop n (<[Z.to_nat q := PyTuple key v]> a) key false step position = Ok q.
Proof.
  induction n as [| n IH]; intros position H; [discriminate |].
  destruct (probe_loop_sound _ _ _ _ _ _ _ H) as (itq & Hq & _).
  assert (Hhere : position = q ->
    probe_loop (S n) (<[Z.to_nat q := PyTuple key v]> a) key false step position = Ok q).
  { intros ->. simpl. rewrite (array_get_insert_eq _ _ _ _ Hq). simpl.
    now rewrite String.eqb_refl. }
  probe_step H it Hit.
  destruct it as [| | k v'].
  - injection H as H. auto.
  - injection H as H. auto.
  - destruct (String.eqb_spec k key) as [-> | Hne].
    + injection H as H. auto.
    + destruct (Z.eq_dec position q) as [Heq | Hpq]; [auto |].
      apply array_get_Ok in Hq as Hq'.
      rewrite array_get_insert_ne by tauto. rewrite Hit. simpl.
      destruct (String.eqb_spec k key); [contradiction |].
      rewrite length_insert. now apply IH.
Qed.

Lemma probe_array_insert_lookup a key (v : V) q :
  probe_array a key true = Ok q ->
  probe_array (<[Z.to_nat q := PyTuple key v]> a) key false = Ok q.
Proof.
  unfold probe_array. rewrite length_insert.
  intros (position & -> & (step & -> & H)%bind_Ok)%bind_Ok. simpl.
  now apply probe_loop_insert_lookup.
Qed.

(** A write that neither removes [key] nor leaves [key] or [None] does not
    disturb the lookup walk for [key]. *)
Lemma probe_loop_lookup_write a key step (n : nat) q q' it' x :
  array_get a q' = Ok it' -> ~ holds_key key it' ->
  x <> PyNone -> ~ holds_key key x ->
  forall position,
  probe_loop n a key false step position = Ok q ->
  probe_loop n (<[Z.to_nat q' := x]> a) key false step position = Ok q.
Proof.
  intros Hq' Hit' Hx Hkx.
  apply array_get_Ok in Hq' as Hq'2.
  induction n as [| n IH]; intros position H; [discriminate |].
  probe_step H it Hit.
  destruct (Z.eq_dec position q') as [-> | Hpq].
  - rewrite (array_get_insert_eq _ _ _ _ Hq'). simpl. rewrite length_insert.
    assert (Hnext : probe_loop n a key false step
                      ((q' + step) mod Z.of_nat (length a)) = Ok q).
    { rewrite Hq' in Hit. injection Hit as <-.
      destruct it' as [| | k v]; [discriminate | assumption |].
      destruct (String.eqb_spec k key) as [-> | Hne]; [| assumption].
      now contradiction Hit'. }
    destruct x as [| | k v]; [contradiction | now apply IH |].
    destruct (String.eqb_spec k key) as [-> | Hne]; [| now apply IH].
    now contradiction Hkx.
  - rewrite array_get_insert_ne by tauto. rewrite Hit. simpl.
    rewrite length_insert.
    destruct it as [| | k v]; [discriminate | now apply IH |].
    destruct (String.eqb_spec k key) as [-> | Hne]; [assumption | now apply IH].
Qed.

Lemma probe_array_lookup_write a key q q' it' x :
  array_get a q' = Ok it' -> ~ holds_key key it' ->
  x <> PyNone -> ~ holds_key key x ->
  probe_array a key false = Ok q ->
  probe_array (<[Z.to_nat q' := x]> a) key false = Ok q.
Proof.
  intros Hq' Hit' Hx Hkx. unfold probe_array. rewrite length_insert.
  intros (position & -> & (step & -> & H)%bind_Ok)%bind_Ok. simpl.
  eapply probe_loop_lookup_write; eassumption.
Qed.

(** Without tombstones, the insert walk stops where a successful lookup
    walk does. *)
Lemma probe_loop_lookup_insert a key step (n : nat) q :
  no_deleted a ->
  forall position,
  probe_loop n a key false step position = Ok q ->
  probe_loop n a key true step position = Ok q.
Proof.
  intros Hnd. induction n as [| n IH]; intros position H; [discriminate |].
  probe_step H it Hit.
  destruct it as [| | k v]; [discriminate | |].
  - apply array_get_Ok in Hit as [_ Hit]. now apply Hnd in Hit.
  - simpl. destruct (String.eqb_spec k key); [assumption | now apply IH].
Qed.

Lemma probe_array_lookup_insert a key q :
  no_deleted a -> probe_array a key false = Ok q -> probe_array a key true = Ok q.
Proof.
  intros Hnd. unfold probe_array.
  intros (position & -> & (step & -> & H)%bind_Ok)%bind_Ok. simpl.
  now apply probe_loop_lookup_insert.
Qed.

(** [__getitem__] returns the value of the tuple the lookup walk finds. *)
Lemma getitem_found t key q (v : V) :
  hashy_probe t key false = Ok q ->
  array_get (array t) q = Ok (PyTuple key v) ->
  getitem t key = Ok (Val v).
Proof. intros Hp Hq. unfold getitem. rewrite Hp. simpl. now rewrite Hq. Qed.

Lemma getitem_inv t key (o : pyobj V) :
  getitem t key = Ok o ->
  exists q v, o = Val v /\ hashy_probe t key false = Ok q /\
              array_get (array t) q = Ok (PyTuple key v).
Proof.
  unfold getitem. intros (q & Hp & (it & Hq & Hi)%bind_Ok)%bind_Ok.
  rewrite hashy_probe_array in Hp.
  destruct (probe_array_sound _ _ _ _ Hp) as (it' & Hq' & Hstop).
  rewrite Hq in Hq'. injection Hq' as <-.
  destruct it as [| | k v]; simpl in Hstop; [discriminate | discriminate |].
  subst k. simpl in Hi. injection Hi as <-. now exists q, v.
Qed.

End Probe.

(** ** Insertion and the Resize Controller *)

Section Resize.

Context {V : Type}.
Implicit Types (a : list (item V)) (it x : item V) (key k : string).
Implicit Types (position step p q : Z) (t : table V) (v data : V).
Implicit Types (rh : table V -> outcome V) (r : result unit).

Lemma table_size_written t position it key data :
  table_size (written t position it key data) = table_size t.
Proof. unfold table_size, written. simpl. now rewrite length_insert. Qed.

(** The ways through [__setitem__]: the probe raises; the entry is written
    and the builtin [len] raises on a negative count; the entry is written
    and the load is within bounds; the entry is written and [_rehash] takes
    over. *)
Lemma setitem_with_cases rh key data t r t' :
  setitem_with rh key data t = (r, t') ->
  (exists e, hashy_probe t key true = Err e /\ r = Err e /\ t' = t) \/
  (exists q it,
     hashy_probe t key true = Ok q /\ array_get (array t) q = Ok it /\
     ((len (written t q it key data) < 0 /\
       r = Err ValueError /\ t' = written t q it key data) \/
      (0 <= len (written t q it key data) /\
       3 * len (written t q it key data) <= 2 * table_size (written t q it key data) /\
       r = Ok tt /\ t' = written t q it key data) \/
      (0 <= len (written t q it key data) /\
       2 * table_size (written t q it key data) < 3 * len (written t q it key data) /\
       rh (written t q it key data) = (r, t')))).
Proof.
  unfold setitem_with. intros H.
  destruct (hashy_probe t key true) as [q | e] eqn:Hp.
  - right. rewrite hashy_probe_array in Hp.
    destruct (probe_array_sound _ _ _ _ Hp) as (it & Hq & _).
    rewrite Hq in H. exists q, it. split; [reflexivity |]. split; [assumption |].
    assert (Hw : set_array (if is_none it then set_count t (count t + 1) else t)
              (<[Z.to_nat q := PyTuple key data]>
                 (array (if is_none it then set_count t (count t + 1) else t)))
            = written t q it key data) by (now destruct it).
    cbv zeta in H. rewrite Hw in H. unfold builtin_len in H.
    destruct (Z.ltb_spec (len (written t q it key data)) 0) as [Hneg | Hpos].
    + left. injection H as <- <-. now repeat split.
    + right.
      destruct (Z.ltb_spec (2 * table_size (written t q it key data))
                  (3 * len (written t q it key data))) as [Hlt | Hge].
      * right. now repeat split.
      * left. injection H as <- <-. now repeat split.
  - left. injection H as <- <-. now exists e.
Qed.

(** *** The load factor after a successful insertion *)

Lemma reinsert_load (set : string -> V -> table V -> outcome V) :
  (forall k v t t', set k v t = (Ok tt, t') -> load_ok t') ->
  forall old_array t t',
  load_ok t -> reinsert set old_array t = (Ok tt, t') -> load_ok t'.
Proof.
  intros Hset. induction old_array as [| it rest IH]; intros t t' Ht H; simpl in H.
  - now injection H as <-.
  - destruct it as [| | k v]; [eapply IH; eassumption | eapply IH; eassumption |].
    destruct (set k v t) as [[[] | e] t1] eqn:Hs; [| discriminate].
    eapply IH; [| exact H]. eapply Hset, Hs.
Qed.

Lemma setitem_with_load rh :
  (forall t t', rh t = (Ok tt, t') -> load_ok t') ->
  forall key data t t', setitem_with rh key data t = (Ok tt, t') -> load_ok t'.
Proof.
  intros Hrh key data t t' H.
  apply setitem_with_cases in H as [(e & _ & He & _) | (q & it & _ & _ & [H | [H | H]])].
  - discriminate.
  - now destruct H as (_ & He & _).
  - destruct H as (_ & Hl & _ & ->). exact Hl.
  - destruct H as (_ & _ & H). eapply Hrh, H.
Qed.

Lemma load_ok_fresh t (m : Z) : load_ok (set_count (set_array t (ArrayR m)) 0).
Proof. unfold load_ok, len, table_size. simpl. lia. Qed.

Lemma rehash_fuel_load (fuel : nat) :
  forall t t', rehash_fuel fuel t = (Ok tt, t') -> load_ok t'.
Proof.
  induction fuel as [| fuel IH]; intros t t' H; simpl in H; [discriminate |].
  destruct (Nat.leb_spec (length (TABLE_SIZES t)) (S (size_index t))); [discriminate |].
  destruct (TABLE_SIZES t !! S (size_index t)) as [m |]; [| discriminate].
  eapply reinsert_load; [| | exact H].
  - intros k v t1 t1'. now apply setitem_with_load.
  - apply load_ok_fresh.
Qed.

(** C6. Immediately after every successful [set], resize included,
    [len() <= capacity * 2/3]. *)
Theorem load_factor_after_set key data t t' :
  setitem key data t = (Ok tt, t') ->
  3 * len t' <= 2 * table_size t'.
Proof.
  unfold setitem. apply setitem_with_load.
  intros t1 t1'. unfold rehash. apply rehash_fuel_load.
Qed.

(** *** What a resize keeps *)

Lemma array_get_of_nat a (i : nat) it :
  a !! i = Some it -> array_get a (Z.of_nat i) = Ok it.
Proof. intros H. apply array_get_Ok. rewrite Nat2Z.id. split; [lia | exact H]. Qed.

Lemma last_value_Some a key v :
  last_value a key = Some v -> exists i : nat, a !! i = Some (PyTuple key v).
Proof.
  induction a as [| it rest IH]; simpl; [discriminate |].
  destruct (last_value rest key) as [v' |].
  - intros [= ->]. destruct IH as [i Hi]; [reflexivity |]. now exists (S i).
  - destruct it as [| | k v']; try discriminate.
    destruct (String.eqb_spec k key) as [-> | _]; [| discriminate].
    intros [= ->]. now exists O.
Qed.

Lemma last_value_None a key :
  last_value a key = None -> forall (i : nat) v, a !! i <> Some (PyTuple key v).
Proof.
  induction a as [| it rest IH]; simpl; intros H i v; [now destruct i |].
  destruct (last_value rest key) as [v' |]; [discriminate |].
  destruct i as [| i]; simpl; [| now apply IH].
  intros [= ->]. now rewrite String.eqb_refl in H.
Qed.

Lemma findable_last_value a key v (i : nat) :
  findable a -> a !! i = Some (PyTuple key v) -> last_value a key = Some v.
Proof.
  intros Hf Hi. destruct (last_value a key) as [v' |] eqn:Hl.
  - apply last_value_Some in Hl as [j Hj].
    apply array_get_of_nat, Hf in Hi as Hpi. apply array_get_of_nat, Hf in Hj as Hpj.
    rewrite Hpi in Hpj. injection Hpj as Hij. apply Nat2Z.inj in Hij. subst j.
    rewrite Hi in Hj. now injection Hj as <-.
  - now apply last_value_None with (i := i) (v := v) in Hl.
Qed.

Lemma rebuilt_fresh (m : Z) : rebuilt (ArrayR (V:=V) m).
Proof.
  split.
  - intros i Hi. unfold ArrayR in Hi. apply lookup_replicate in Hi as [? _]. discriminate.
  - intros q k v Hq. apply array_get_ArrayR in Hq. discriminate.
Qed.

Lemma rebuilt_write a key data q :
  rebuilt a -> probe_array a key true = Ok q ->
  rebuilt (<[Z.to_nat q := PyTuple key data]> a).
Proof.
  intros [Hnd Hf] Hp.
  destruct (probe_array_sound _ _ _ _ Hp) as (it & Hq & Hstop).
  apply array_get_Ok in Hq as Hq'.
  split.
  - intros i Hi. apply list_lookup_insert_Some in Hi as [(_ & ? & _) | (_ & Hi)];
      [discriminate | now apply Hnd in Hi].
  - intros r k v Hr. destruct (Z.eq_dec r q) as [-> | Hrq].
    + rewrite (array_get_insert_eq _ _ _ _ Hq) in Hr. injection Hr as <- <-.
      now apply probe_array_insert_lookup.
    + rewrite array_get_insert_ne in Hr by tauto.
      pose proof (Hf _ _ _ Hr) as Hpr.
      assert (Hk : k <> key).
      { intros ->. apply probe_array_lookup_insert in Hpr; [| assumption].
        rewrite Hp in Hpr. now injection Hpr as ->. }
      eapply probe_array_lookup_write; try eassumption.
      * destruct it; simpl in *; congruence.
      * discriminate.
      * simpl. congruence.
Qed.

(** The entry just written is read back. *)
Lemma written_get_same t key data q it :
  hashy_probe t key true = Ok q -> array_get (array t) q = Ok it ->
  getitem (written t q it key data) key = Ok (Val data).
Proof.
  intros Hp Hq. rewrite hashy_probe_array in Hp.
  apply getitem_found with (q := q).
  - rewrite hashy_probe_array. now apply probe_array_insert_lookup.
  - simpl. eapply array_get_insert_eq, Hq.
Qed.

(** The other keys are read as before. *)
Lemma written_get_other t key data q it k v :
  hashy_probe t key true = Ok q -> array_get (array t) q = Ok it ->
  k <> key -> getitem t k = Ok (Val v) ->
  getitem (written t q it key data) k = Ok (Val v).
Proof.
  intros Hp Hq Hk Hg. rewrite hashy_probe_array in Hp.
  destruct (probe_array_sound _ _ _ _ Hp) as (it' & Hq' & Hstop).
  rewrite Hq in Hq'. injection Hq' as <-.
  apply getitem_inv in Hg as (q' & v' & [= <-] & Hp' & Hq').
  assert (Hnk : ~ holds_key k it) by (destruct it; simpl in *; congruence).
  apply getitem_found with (q := q').
  - rewrite hashy_probe_array in *. simpl.
    eapply probe_array_lookup_write; try eassumption; [discriminate | simpl; congruence].
  - simpl. rewrite array_get_insert_ne; [assumption | | ].
    + apply array_get_Ok in Hq. tauto.
    + intros ->. rewrite Hq in Hq'. injection Hq' as ->. now apply Hnk.
Qed.

(** In a rebuilt array, what [__getitem__] returns is the last value. *)
Lemma rebuilt_get_last t k v :
  rebuilt (array t) -> getitem t k = Ok (Val v) -> last_value (array t) k = Some v.
Proof.
  intros [_ Hf] (q & v' & [= <-] & _ & [_ Hq]%array_get_Ok)%getitem_inv.
  eapply findable_last_value; eassumption.
Qed.

Lemma setitem_with_spec rh : rehash_spec rh -> set_spec (setitem_with rh).
Proof.
  intros Hrh key data t t' Hrb H.
  apply setitem_with_cases in H as [(e & _ & He & _) | (q & it & Hp & Hq & H)];
    [discriminate |].
  assert (Hw : rebuilt (array (written t q it key data))).
  { simpl. apply rebuilt_write; [assumption | now rewrite <- hashy_probe_array]. }
  pose proof (written_get_same t key data q it Hp Hq) as Hsame.
  destruct H as [(_ & [=] & _) | [(_ & _ & _ & ->) | (_ & _ & H)]].
  - split; [assumption |]. split; [assumption |].
    intros k v. now apply written_get_other.
  - apply Hrh in H as [Hrb' Hkeep]. split; [assumption |].
    split; [now apply Hkeep, rebuilt_get_last |].
    intros k v Hk Hg. apply Hkeep, rebuilt_get_last; [assumption |].
    now apply written_get_other.
Qed.

Lemma reinsert_spec (set : string -> V -> table V -> outcome V) :
  set_spec set ->
  forall old_array t t',
  rebuilt (array t) -> reinsert set old_array t = (Ok tt, t') ->
  rebuilt (array t') /\
  (forall k v, last_value old_array k = Some v -> getitem t' k = Ok (Val v)) /\
  (forall k v, last_value old_array k = None ->
     getitem t k = Ok (Val v) -> getitem t' k = Ok (Val v)).
Proof.
  intros Hset. induction old_array as [| it rest IH]; intros t t' Hrb H; simpl in H.
  - injection H as <-. split; [assumption |]. split; [discriminate | auto].
  - assert (Hskip : reinsert set rest t = (Ok tt, t') ->
              (forall k v, last_value (it :: rest) k = last_value rest k) ->
              rebuilt (array t') /\
              (forall k v, last_value (it :: rest) k = Some v -> getitem t' k = Ok (Val v)) /\
              (forall k v, last_value (it :: rest) k = None ->
                 getitem t k = Ok (Val v) -> getitem t' k = Ok (Val v))).
    { intros H' Heq. destruct (IH _ _ Hrb H') as (? & ? & ?).
      split; [assumption |]. split; intros k v; rewrite (Heq k v); auto. }
    destruct it as [| | k0 v0].
    + apply Hskip; [assumption |]. intros k _. simpl. now destruct (last_value rest k).
    + apply Hskip; [assumption |]. intros k _. simpl. now destruct (last_value rest k).
    + clear Hskip. destruct (set k0 v0 t) as [[[] | e] t1] eqn:Hs; [| discriminate].
      destruct (Hset _ _ _ _ Hrb Hs) as (Hrb1 & Hsame & Hother).
      destruct (IH _ _ Hrb1 H) as (Hrb' & Hlast & Hkeep).
      split; [assumption |].
      split; intros k v; simpl; destruct (last_value rest k) as [v' |] eqn:Hl.
      * intros [= ->]. now apply Hlast.
      * destruct (String.eqb_spec k0 k) as [-> | Hne]; [| discriminate].
        intros [= ->]. now apply Hkeep.
      * discriminate.
      * destruct (String.eqb_spec k0 k) as [-> | Hne]; [discriminate |].
        intros _ Hg. apply Hkeep; [assumption |]. apply Hother; [congruence | assumption].
Qed.

(** A successful [_rehash] leaves every key with the value of its last
    tuple in the old array. *)
Lemma rehash_fuel_spec (fuel : nat) : rehash_spec (rehash_fuel (V:=V) fuel).
Proof.
  induction fuel as [| fuel IH]; intros t t' H; simpl in H; [discriminate |].
  destruct (Nat.leb_spec (length (TABLE_SIZES t)) (S (size_index t))); [discriminate |].
  destruct (TABLE_SIZES t !! S (size_index t)) as [m |]; [| discriminate].
  eapply reinsert_spec in H as (Hrb & Hlast & _).
  - now split.
  - now apply setitem_with_spec.
  - simpl. apply rebuilt_fresh.
Qed.

(** *** Invariants of the tables a client can build *)

Lemma probe_loop_clear_path a key is_insert step (n : nat) q :
  forall position,
  probe_loop n a key is_insert step position = Ok q -> clear_path n a step position q.
Proof.
  induction n as [| n IH]; intros position H; [discriminate |].
  probe_step H it Hit.
  destruct it as [| | k v].
  - destruct is_insert; [| discriminate]. injection H as <-. now left.
  - destruct is_insert; [injection H as <-; now left |].
    right. exists PyDeleted. repeat split; [discriminate | now apply IH].
  - destruct (String.eqb_spec k key); [injection H as <-; now left |].
    right. exists (PyTuple k v). repeat split; [discriminate | now apply IH].
Qed.

Lemma clear_path_insert a step (i : nat) x target (n : nat) :
  x <> PyNone ->
  forall position,
  clear_path n a step position target ->
  clear_path n (<[i := x]> a) step position target.
Proof.
  intros Hx. induction n as [| n IH]; intros position H; [assumption |].
  destruct H as [-> | (it & Hit & Hne & H)]; [now left |].
  right. rewrite length_insert.
  apply array_get_Ok in Hit as [Hp Hit].
  destruct (Nat.eq_dec i (Z.to_nat position)) as [-> | Hi].
  - exists x. split; [| now auto].
    apply array_get_Ok. split; [assumption |].
    apply list_lookup_insert_eq. eapply lookup_lt_Some, Hit.
  - exists it. split; [| now auto].
    apply array_get_Ok. split; [assumption |]. now rewrite list_lookup_insert_ne.
Qed.

(** On the walk to a tuple of [key], the insert walk for [key] has stopped
    before it could meet a [None]. *)
Lemma clear_path_probe a key v step p q (n : nat) :
  array_get a p = Ok (PyTuple key v) ->
  forall position,
  clear_path n a step position p ->
  probe_loop n a key true step position = Ok q ->
  array_get a q <> Ok PyNone.
Proof.
  intros Hr. induction n as [| n IH]; intros position Hc H; [discriminate |].
  probe_step H it Hit.
  destruct Hc as [-> | (it' & Hit' & Hne & Hc)].
  - rewrite Hr in Hit. injection Hit as <-. rewrite String.eqb_refl in H.
    injection H as <-. now rewrite Hr.
  - rewrite Hit in Hit'. injection Hit' as <-.
    destruct it as [| | k v']; [contradiction | |].
    + injection H as <-. now rewrite Hit.
    + destruct (String.eqb_spec k key); [| eapply IH; eassumption].
      injection H as <-. now rewrite Hit.
Qed.

Lemma chained_no_key a key q :
  chained a -> probe_array a key true = Ok q -> array_get a q = Ok PyNone ->
  forall (i : nat) v, a !! i <> Some (PyTuple key v).
Proof.
  intros Hc Hp Hq i v Hi. apply array_get_of_nat in Hi.
  destruct (Hc _ _ _ Hi) as (position & step & Hh & Hh2 & Hpath).
  unfold probe_array in Hp. rewrite Hh, Hh2 in Hp. simpl in Hp.
  now apply (clear_path_probe _ _ _ _ _ _ _ Hi _ Hpath Hp).
Qed.

Lemma chained_fresh (m : Z) : chained (ArrayR (V:=V) m).
Proof. intros r k v Hr. apply array_get_ArrayR in Hr. discriminate. Qed.

Lemma chained_delete a (i : nat) : chained a -> chained (<[i := PyDeleted]> a).
Proof.
  intros Hc r k v Hr. rewrite length_insert.
  apply array_get_Ok in Hr as [Hr0 Hr].
  apply list_lookup_insert_Some in Hr as [(_ & ? & _) | (_ & Hr)]; [discriminate |].
  destruct (Hc r k v) as (position & step & Hh & Hh2 & Hpath);
    [now apply array_get_Ok |].
  exists position, step. repeat split; try assumption.
  now apply clear_path_insert.
Qed.

Lemma chained_write a key data q :
  chained a -> probe_array a key true = Ok q ->
  chained (<[Z.to_nat q := PyTuple key data]> a).
Proof.
  intros Hc Hp r k v Hr. rewrite length_insert.
  destruct (probe_array_sound _ _ _ _ Hp) as (it & Hq & _).
  apply array_get_Ok in Hq as Hq'.
  destruct (Z.eq_dec r q) as [-> | Hrq].
  - rewrite (array_get_insert_eq _ _ _ _ Hq) in Hr. injection Hr as <- <-.
    unfold probe_array in Hp.
    apply bind_Ok in Hp as (position & Hh & (step & Hh2 & Hp)%bind_Ok).
    exists position, step. repeat split; try assumption.
    apply clear_path_insert; [discriminate |].
    eapply probe_loop_clear_path, Hp.
  - rewrite array_get_insert_ne in Hr by tauto.
    destruct (Hc _ _ _ Hr) as (position & step & Hh & Hh2 & Hpath).
    exists position, step. repeat split; try assumption.
    now apply clear_path_insert.
Qed.

Lemma pymod_no_fuel (n m : Z) : pymod n m <> Err OutOfFuel.
Proof. unfold pymod. now destruct (m =? 0). Qed.

Lemma bind_no_fuel {A B : Type} (c : result A) (f : A -> result B) :
  c <> Err OutOfFuel -> (forall y, f y <> Err OutOfFuel) -> bind c f <> Err OutOfFuel.
Proof.
  intros Hc Hf. destruct c as [y | e]; simpl; [apply Hf |].
  intros [= ->]. now apply Hc.
Qed.

Lemma hash_at_no_fuel (m : Z) key : hash_at m key <> Err OutOfFuel.
Proof.
  unfold hash_at. generalize 0 31415.
  induction key as [| c key IH]; intros value b; simpl; [discriminate |].
  apply bind_no_fuel; [apply pymod_no_fuel | intros value'].
  apply bind_no_fuel; [apply pymod_no_fuel | intros b']. apply IH.
Qed.

Lemma hash2_at_no_fuel (m : Z) key : hash2_at m key <> Err OutOfFuel.
Proof.
  unfold hash2_at. apply bind_no_fuel; [| discriminate]. generalize 0.
  induction key as [| c key IH]; intros value; simpl; [discriminate |].
  apply bind_no_fuel; [apply pymod_no_fuel | intros value']. apply IH.
Qed.

Lemma array_get_no_fuel a p : array_get a p <> Err OutOfFuel.
Proof.
  unfold array_get. destruct (p <? 0); [discriminate |].
  now destruct (a !! Z.to_nat p).
Qed.

Lemma probe_loop_no_fuel a key is_insert step (n : nat) :
  forall position, probe_loop n a key is_insert step position <> Err OutOfFuel.
Proof.
  induction n as [| n IH]; intros position; simpl; [discriminate |].
  apply bind_no_fuel; [apply array_get_no_fuel | intros it].
  destruct it as [| | k v].
  - now destruct is_insert.
  - destruct is_insert; [discriminate | apply IH].
  - destruct (String.eqb k key); [discriminate | apply IH].
Qed.

Lemma hashy_probe_no_fuel t key is_insert :
  hashy_probe t key is_insert <> Err OutOfFuel.
Proof.
  unfold hashy_probe.
  apply bind_no_fuel; [apply hash_at_no_fuel | intros position].
  apply bind_no_fuel; [apply hash2_at_no_fuel | intros step].
  apply probe_loop_no_fuel.
Qed.

Lemma good_intro t (o : outcome V) :
  fst o <> Err OutOfFuel -> chained (array (snd o)) -> load_inv (snd o) ->
  TABLE_SIZES (snd o) = TABLE_SIZES t -> (size_index t <= size_index (snd o))%nat ->
  good t o.
Proof. unfold good, state_inv. tauto. Qed.

Lemma good_trans t1 t2 (o : outcome V) :
  TABLE_SIZES t2 = TABLE_SIZES t1 -> (size_index t1 <= size_index t2)%nat ->
  good t2 o -> good t1 o.
Proof.
  intros Hs Hi (Hf & [Hc Hl] & Hs' & Hi').
  apply good_intro; [assumption | assumption | assumption | congruence | lia].
Qed.

Lemma setitem_with_good rh key data t :
  state_inv t ->
  (forall t2, chained (array t2) -> TABLE_SIZES t2 = TABLE_SIZES t ->
              size_index t2 = size_index t -> good t2 (rh t2)) ->
  good t (setitem_with rh key data t).
Proof.
  intros [Hc Hl] Hrh.
  destruct (setitem_with rh key data t) as [r t'] eqn:H.
  apply setitem_with_cases in H as [(e & Hp & -> & ->) | (q & it & Hp & Hq & H)].
  - apply good_intro; simpl; [| assumption | assumption | reflexivity | lia].
    intros [= ->]. eapply hashy_probe_no_fuel, Hp.
  - assert (Hw : chained (array (written t q it key data))).
    { simpl. apply chained_write; [assumption | now rewrite <- hashy_probe_array]. }
    destruct H as [(Hneg & -> & ->) | [(_ & Hload & -> & ->) | (_ & _ & H)]].
    + apply good_intro; simpl; [discriminate | assumption | | reflexivity | lia].
      left. unfold load_ok. rewrite table_size_written. unfold table_size. lia.
    + apply good_intro; simpl; [discriminate | assumption | now left | reflexivity | lia].
    + rewrite <- H. eapply good_trans; [| | apply Hrh]; try reflexivity; assumption.
Qed.

Lemma reinsert_good (set : string -> V -> table V -> outcome V) (bound : nat) :
  (forall k v t, state_inv t ->
     (length (TABLE_SIZES t) - size_index t < bound)%nat -> good t (set k v t)) ->
  forall old_array t,
  state_inv t -> (length (TABLE_SIZES t) - size_index t < bound)%nat ->
  good t (reinsert set old_array t).
Proof.
  intros Hset. induction old_array as [| it rest IH]; intros t Hinv Hb; simpl.
  - destruct Hinv. apply good_intro; simpl; [discriminate | | | |]; auto.
  - destruct it as [| | k v]; [now apply IH | now apply IH |].
    pose proof (Hset k v t Hinv Hb) as Hg.
    destruct (set k v t) as [[[] | e] t1]; [| exact Hg].
    destruct Hg as (_ & Hinv1 & Hs1 & Hi1). simpl in *.
    eapply good_trans; [exact Hs1 | exact Hi1 |].
    apply IH; [assumption |]. rewrite Hs1. lia.
Qed.

(** With more fuel than sizes are left, [_rehash] never runs out of it, and
    whatever it returns or raises the invariants hold afterwards. *)
Lemma rehash_fuel_good (fuel : nat) :
  forall t,
  chained (array t) -> (length (TABLE_SIZES t) - size_index t < fuel)%nat ->
  good t (rehash_fuel fuel t).
Proof.
  induction fuel as [| fuel IH]; intros t Hc Hb; [lia |]. simpl.
  destruct (Nat.leb_spec (length (TABLE_SIZES t)) (S (size_index t))) as [Hle | Hlt].
  - apply good_intro; simpl; [discriminate | assumption | | reflexivity | lia].
    right. simpl. lia.
  - destruct (TABLE_SIZES t !! S (size_index t)) as [m |] eqn:Hm.
    2: { apply lookup_ge_None in Hm. lia. }
    eapply good_trans; [| | apply reinsert_good with (bound := fuel)].
    + reflexivity.
    + simpl. lia.
    + intros k v t1 Hinv1 Hb1. apply setitem_with_good; [assumption |].
      intros t2 Hc2 Hs2 Hi2. apply IH; [assumption |]. rewrite Hs2, Hi2. exact Hb1.
    + split; [apply chained_fresh | left; apply load_ok_fresh].
    + simpl. lia.
Qed.

Lemma rehash_fuel_enough t :
  chained (array t) -> good t (rehash t).
Proof. intros Hc. apply rehash_fuel_good; [assumption |]. unfold fuel_of. lia. Qed.

Lemma setitem_good key data t : state_inv t -> good t (setitem key data t).
Proof.
  intros Hinv. apply setitem_with_good; [assumption |].
  intros t2 Hc _ _. now apply rehash_fuel_enough.
Qed.

Lemma delitem_good key t : state_inv t -> good t (delitem key t).
Proof.
  intros [Hc Hl]. unfold delitem.
  destruct (hashy_probe t key false) as [q | e] eqn:Hp.
  - apply good_intro; simpl; [discriminate | now apply chained_delete | | reflexivity | lia].
    destruct Hl as [Hl | Hl]; [left | now right].
    unfold load_ok, len, table_size in *. simpl. rewrite length_insert. lia.
  - apply good_intro; simpl; [| assumption | assumption | reflexivity | lia].
    intros [= ->]. eapply hashy_probe_no_fuel, Hp.
Qed.

Lemma init_inv sizes t : init sizes = Ok t -> state_inv t.
Proof.
  unfold init.
  destruct ((match sizes with Some s => s | None => DEFAULT_TABLE_SIZES end) !! 0%nat)
    as [m |]; [| discriminate].
  intros [= <-]. split; simpl; [apply chained_fresh |].
  left. unfold load_ok, len, table_size. simpl. lia.
Qed.

Lemma reachable_inv t : reachable t -> state_inv t.
Proof.
  induction 1 as [sizes t _ Hi | key data t _ IH | key t _ IH].
  - eapply init_inv, Hi.
  - now apply setitem_good.
  - now apply delitem_good.
Qed.

(** [__setitem__] and [_rehash], as modelled, never run out of fuel. *)
Lemma setitem_total key data t :
  reachable t -> fst (setitem key data t) <> Err OutOfFuel.
Proof. intros Hr. now apply setitem_good, reachable_inv. Qed.

(** *** Round trip *)

Lemma rehash_fuel_Ok_index (fuel : nat) t t' :
  rehash_fuel fuel t = (Ok tt, t') ->
  (S (size_index t) < length (TABLE_SIZES t))%nat.
Proof.
  destruct fuel as [| fuel]; simpl; [discriminate |].
  now destruct (Nat.leb_spec (length (TABLE_SIZES t)) (S (size_index t))).
Qed.

Lemma last_value_written a key data (i : nat) :
  (i < length a)%nat ->
  (forall (j : nat) v, a !! j <> Some (PyTuple key v)) ->
  last_value (<[i := PyTuple key data]> a) key = Some data.
Proof.
  intros Hi Hnone.
  destruct (last_value (<[i := PyTuple key data]> a) key) as [v |] eqn:Hl.
  - apply last_value_Some in Hl as [j Hj].
    apply list_lookup_insert_Some in Hj as [(_ & [= ->] & _) | (_ & Hj)];
      [reflexivity | now apply Hnone in Hj].
  - apply last_value_None with (i := i) (v := data) in Hl.
    now rewrite list_lookup_insert_eq in Hl.
Qed.

(** C5. Round trip: on a table built from a fresh one over positive sizes
    (the configured primes among them), a [set(k, v)] that completes is
    followed by [get(k) == v], also when the [set] has resized the table. *)
Theorem set_then_get key data t t' :
  reachable t ->
  setitem key data t = (Ok tt, t') ->
  getitem t' key = Ok (Val data).
Proof.
  intros [Hc Hl]%reachable_inv H. unfold setitem in H.
  apply setitem_with_cases in H as [(e & _ & He & _) | (q & it & Hp & Hq & H)];
    [discriminate |].
  destruct H as [(_ & [=] & _) | [(_ & _ & _ & ->) | (_ & Hover & H)]];
    [now apply written_get_same |].
  unfold rehash in H.
  apply rehash_fuel_Ok_index in H as Hidx. simpl in Hidx.
  apply rehash_fuel_spec in H as [_ Hkeep]. apply Hkeep. simpl.
  (* the load was within bounds before, so the write has filled a [None] *)
  destruct Hl as [Hl | Hl]; [| lia].
  rewrite table_size_written in Hover. unfold load_ok, len in *. simpl in Hover.
  destruct it as [| | k v]; simpl in Hover; [| lia | lia].
  apply array_get_Ok in Hq as Hq'.
  apply last_value_written; [eapply lookup_lt_Some; apply Hq' |].
  rewrite hashy_probe_array in Hp. now apply (chained_no_key _ _ _ Hc Hp Hq).
Qed.

(** *** Operations that raise *)

Lemma setitem_no_resize key data t q it :
  hashy_probe t key true = Ok q -> array_get (array t) q = Ok it ->
  0 <= len (written t q it key data) ->
  3 * len (written t q it key data) <= 2 * table_size t ->
  setitem key data t = (Ok tt, written t q it key data).
Proof.
  intros Hp Hq Hpos Hload. unfold setitem, setitem_with. rewrite Hp, Hq. cbv zeta.
  replace (set_array _ _) with (written t q it key data) by (now destruct it).
  unfold builtin_len.
  destruct (Z.ltb_spec (len (written t q it key data)) 0); [lia |].
  rewrite table_size_written.
  now destruct (Z.ltb_spec (2 * table_size t) (3 * len (written t q it key data))); [lia |].
Qed.

Lemma delitem_found key t q :
  hashy_probe t key false = Ok q ->
  delitem key t =
    (Ok tt, mkTable (TABLE_SIZES t) (size_index t)
              (<[Z.to_nat q := PyDeleted]> (array t)) (count t - 1)).
Proof. intros Hp. unfold delitem. now rewrite Hp. Qed.

Lemma delitem_failed key t e t' : delitem key t = (Err e, t') -> t' = t.
Proof.
  unfold delitem. destruct (hashy_probe t key false); [discriminate |].
  now intros [= _ <-].
Qed.

(** C4 (amended). A [delete] that raises leaves the table as it was, and so
    does a [set] whose probe walk raises ([get] and [contains] assign
    nothing). A [set] that raises later has written its entry, which [get]
    returns from the table as written, and raises out of the load test: the
    builtin [len] raises [ValueError] on a negative count and the table
    stays as written; or the resize raises and the table is as [_rehash]
    left it. When no larger configured size remains, the resize raises
    [FullError] and leaves the entry written, the count updated and the size
    index advanced by one, in storage of the old capacity that is otherwise
    untouched. *)
Theorem failed_operations t :
  (forall key e t', delitem key t = (Err e, t') -> t' = t) /\
  (forall key data e t',
     setitem key data t = (Err e, t') ->
     (hashy_probe t key true = Err e /\ t' = t) \/
     (exists q it,
        hashy_probe t key true = Ok q /\ array_get (array t) q = Ok it /\
        getitem (written t q it key data) key = Ok (Val data) /\
        ((len (written t q it key data) < 0 /\
          e = ValueError /\ t' = written t q it key data) \/
         (0 <= len (written t q it key data) /\
          2 * table_size t < 3 * len (written t q it key data) /\
          rehash (written t q it key data) = (Err e, t') /\
          ((length (TABLE_SIZES t) <= S (size_index t))%nat ->
           e = FullError /\
           t' = mkTable (TABLE_SIZES t) (S (size_index t))
                  (<[Z.to_nat q := PyTuple key data]> (array t))
                  (if is_none it then count t + 1 else count t) /\
           getitem t' key = Ok (Val data)))))).
Proof.
  split; [intros key e t'; apply delitem_failed |].
  intros key data e t' H. unfold setitem in H.
  apply setitem_with_cases in H as [(e' & Hp & [= ->] & ->) | (q & it & Hp & Hq & H)];
    [now left | right].
  pose proof (written_get_same t key data q it Hp Hq) as Hsame.
  exists q, it. split; [assumption |]. split; [assumption |]. split; [assumption |].
  destruct H as [(Hneg & [= ->] & ->) | [(_ & _ & [=] & _) | (Hpos & Hover & H)]].
  - left. now repeat split.
  - right. rewrite table_size_written in Hover.
    split; [assumption |]. split; [assumption |]. split; [assumption |].
    intros Hlast. unfold rehash, fuel_of in H. simpl in H.
    destruct (Nat.leb_spec (length (TABLE_SIZES t)) (S (size_index t))); [| lia].
    injection H as <- <-. split; [reflexivity |]. split; [reflexivity |].
    exact Hsame.
Qed.

(** *** Fresh tables *)

Lemma init_fresh sizes t :
  init sizes = Ok t ->
  exists m, array t = ArrayR m /\ count t = 0 /\ size_index t = 0%nat.
Proof.
  unfold init.
  destruct ((match sizes with Some s => s | None => DEFAULT_TABLE_SIZES end) !! 0%nat)
    as [m |]; [| discriminate].
  intros [= <-]. now exists m.
Qed.

Lemma array_get_fresh (m p : Z) :
  0 <= p < Z.of_nat (length (ArrayR (V:=V) m)) -> array_get (ArrayR (V:=V) m) p = Ok PyNone.
Proof.
  unfold ArrayR. rewrite length_replicate. intros Hp.
  apply array_get_Ok. split; [lia |]. apply lookup_replicate_2. lia.
Qed.

(** The insert walk stops at once on [None] and on the marker. *)
Lemma probe_array_first a key p step it :
  hash_at (Z.of_nat (length a)) key = Ok p ->
  hash2_at (Z.of_nat (length a)) key = Ok step ->
  array_get a p = Ok it -> (it = PyNone \/ it = PyDeleted) ->
  probe_array a key true = Ok p.
Proof.
  intros Hh Hh2 Hit Hstop. unfold probe_array. rewrite Hh, Hh2. simpl.
  apply array_get_Ok in Hit as Hit'. destruct Hit' as [_ Hlt%lookup_lt_Some].
  destruct (length a) as [| n]; [lia |]. simpl. rewrite Hit. simpl.
  now destruct Hstop as [-> | ->].
Qed.

(** C7 (amended). An empty key is not rejected: it hashes to position 0 with
    step 1, and on a fresh table of capacity at least 2 [set] stores it like
    any other key, [get] returns its value and [contains] is true. *)
Theorem empty_key_accepted sizes t data :
  init sizes = Ok t -> 2 <= table_size t ->
  hash t "" = Ok 0 /\ hash2 t "" = Ok 1 /\
  exists t', setitem "" data t = (Ok tt, t') /\
             getitem t' "" = Ok (Val data) /\
             contains t' "" = Ok true.
Proof.
  intros (m & Ha & Hc & _)%init_fresh Hm.
  split; [reflexivity |]. split; [reflexivity |].
  assert (Hq : array_get (array t) 0 = Ok PyNone).
  { rewrite Ha. apply array_get_fresh. rewrite <- Ha. unfold table_size in Hm. lia. }
  assert (Hp : hashy_probe t "" true = Ok 0).
  { rewrite hashy_probe_array. eapply probe_array_first; eauto; reflexivity. }
  exists (written t 0 PyNone "" data).
  assert (Hg : getitem (written t 0 PyNone "" data) "" = Ok (Val data))
    by now apply written_get_same.
  split; [| split; [assumption |]].
  - apply setitem_no_resize; [assumption | assumption | |];
      unfold len; simpl; rewrite Hc; lia.
  - unfold contains. now rewrite Hg.
Qed.


End Resize.

(** * Scenarios *)

Section Scenarios.

Example init_default : init None = Ok table_default.
Proof. reflexivity. Qed.

Example init_5_13 : init (Some [5; 13]) = Ok table_5_13.
Proof. reflexivity. Qed.

Example init_5 : init (Some [5]) = Ok table_5.
Proof. reflexivity. Qed.

(** C9. With sizes [5, 13], the inserts of "a", "b", "c" leave the capacity
    at 5; the insert of "d" makes the count 4, resizes to 13, and afterwards
    the four keys are read back with their values and [len() == 4]. *)
Theorem scenario_resize_5_13 :
  init (Some [5; 13]) = Ok table_5_13 /\
  run abc table_5_13 = (Ok tt, after abc table_5_13) /\
  table_size (after abc table_5_13) = 5 /\
  len (after abc table_5_13) = 3 /\
  exists t',
    setitem "d" 4 (after abc table_5_13) = (Ok tt, t') /\
    table_size t' = 13 /\
    getitem t' "a" = Ok (Val 1) /\
    getitem t' "b" = Ok (Val 2) /\
    getitem t' "c" = Ok (Val 3) /\
    getitem t' "d" = Ok (Val 4) /\
    len t' = 4.
Proof.
  repeat (split; [reflexivity |]).
  eexists. split; [vm_compute; reflexivity |].
  repeat split; reflexivity.
Qed.

(** C1, at its failing input. After [set("a", 1); delete("a"); set("a", 2)]
    on a default table one position holds a tuple, and the count is 0: the
    second [set] found the marker, not [None], and did not count. *)
Theorem count_misses_reused_marker :
  let t := after [setitem "a" 1; delitem "a"; setitem "a" 2] table_default in
  fst (run [setitem "a" 1; delitem "a"; setitem "a" 2] table_default) = Ok tt /\
  getitem t "a" = Ok (Val 2) /\
  occupied (array t) = 1 /\
  len t = 0.
Proof. vm_compute. repeat split; reflexivity. Qed.

(** C2, at its failing input. After [set("a", 1); delete("a")] no position
    holds a tuple, and [keys()] and [values()] return the first and the
    second character of the marker. *)
Theorem keys_values_show_marker :
  let t := after [setitem "a" 1; delitem "a"] table_default in
  fst (run [setitem "a" 1; delitem "a"] table_default) = Ok tt /\
  occupied (array t) = 0 /\
  keys t = Ok [Str "<"] /\
  values t = Ok [Str "D"].
Proof. vm_compute. repeat split; reflexivity. Qed.

(** C3, at its failing input. Once every position of a default table holds
    the marker, the lookup walk for an absent key falls out of its loop:
    [get], [contains] and [delete] raise [FullError], not [KeyError]. *)
Theorem lookup_raises_FullError :
  let t := after fill_with_markers table_default in
  fst (run fill_with_markers table_default) = Ok tt /\
  array t = [PyDeleted; PyDeleted; PyDeleted; PyDeleted; PyDeleted] /\
  hashy_probe t "a" false = Err FullError /\
  getitem t "a" = Err FullError /\
  contains t "a" = Err FullError /\
  fst (delitem "a" t) = Err FullError.
Proof. vm_compute. repeat split; reflexivity. Qed.

(** C4 fails as stated: with the single size 5, the fourth insert raises
    [FullError] out of the resize, and the table has changed: "d" is stored,
    the count is 4 and the size index 1. *)
Lemma failed_set_is_retained :
  let t := after abc table_5 in
  let t' := snd (setitem "d" 4 t) in
  fst (setitem "d" 4 t) = Err FullError /\
  t' <> t /\
  getitem t "d" = Err KeyError /\ getitem t' "d" = Ok (Val 4) /\
  len t = 3 /\ len t' = 4 /\
  size_index t = 0%nat /\ size_index t' = 1%nat.
Proof.
  vm_compute. split; [reflexivity |]. split; [discriminate |].
  repeat split; reflexivity.
Qed.

(** With the count at -1, a [set] writes its entry and the builtin [len]
    of the load test raises [ValueError]. *)
Example set_on_negative_count :
  let t := after set_delete_twice table_default in
  len t = -1 /\
  fst (setitem "a" 3 t) = Err ValueError /\
  getitem (snd (setitem "a" 3 t)) "a" = Ok (Val 3) /\
  len (snd (setitem "a" 3 t)) = -1 /\
  size_index (snd (setitem "a" 3 t)) = 0%nat.
Proof. vm_compute. repeat split; reflexivity. Qed.

(** With sizes [5, 3] the resize of the fourth insert raises out of a
    nested resize: the table is left in the storage of size 3 with three of
    the four entries. *)
Example failed_nested_resize :
  let t' := snd (setitem "d" 4 (after abc table_5_3)) in
  fst (setitem "d" 4 (after abc table_5_3)) = Err FullError /\
  array t' = [PyTuple "a" 1; PyTuple "d" 4; PyTuple "b" 2] /\
  len t' = 3 /\ size_index t' = 2%nat /\
  getitem t' "c" = Err FullError.
Proof. vm_compute. repeat split; reflexivity. Qed.

Lemma failed_operations_witness :
  setitem "d" 4 (after abc table_5) = (Err FullError, snd (setitem "d" 4 (after abc table_5))) /\
  ((hashy_probe (after abc table_5) "d" true = Err FullError /\
    snd (setitem "d" 4 (after abc table_5)) = after abc table_5) \/
   (exists q it,
      hashy_probe (after abc table_5) "d" true = Ok q /\
      array_get (array (after abc table_5)) q = Ok it /\
      getitem (written (after abc table_5) q it "d" 4) "d" = Ok (Val 4) /\
      ((len (written (after abc table_5) q it "d" 4) < 0 /\
        FullError = ValueError /\
        snd (setitem "d" 4 (after abc table_5)) = written (after abc table_5) q it "d" 4) \/
       (0 <= len (written (after abc table_5) q it "d" 4) /\
        2 * table_size (after abc table_5) < 3 * len (written (after abc table_5) q it "d" 4) /\
        rehash (written (after abc table_5) q it "d" 4)
          = (Err FullError, snd (setitem "d" 4 (after abc table_5))) /\
        ((length (TABLE_SIZES (after abc table_5)) <= S (size_index (after abc table_5)))%nat ->
         FullError = FullError /\
         snd (setitem "d" 4 (after abc table_5))
           = mkTable (TABLE_SIZES (after abc table_5)) (S (size_index (after abc table_5)))
               (<[Z.to_nat q := PyTuple "d" 4]> (array (after abc table_5)))
               (if is_none it then count (after abc table_5) + 1
                else count (after abc table_5)) /\
         getitem (snd (setitem "d" 4 (after abc table_5))) "d" = Ok (Val 4)))))).
Proof.
  split; [reflexivity |].
  apply (proj2 (failed_operations (after abc table_5)) "d" 4 FullError). reflexivity.
Defined.

(** C7 fails as stated: the empty key is stored and found like any other. *)
Lemma empty_key_is_stored :
  let t := after [setitem "" 1] table_default in
  hash table_default "" = Ok 0 /\
  run [setitem "" 1] table_default = (Ok tt, t) /\
  array t = [PyTuple "" 1; PyNone; PyNone; PyNone; PyNone] /\
  getitem t "" = Ok (Val 1) /\
  contains t "" = Ok true /\
  fst (delitem "" t) = Ok tt.
Proof. vm_compute. repeat split; reflexivity. Qed.

Lemma empty_key_accepted_witness :
  init None = Ok table_default /\ 2 <= table_size table_default /\
  hash table_default "" = Ok 0 /\ hash2 table_default "" = Ok 1 /\
  exists t', setitem "" 7 table_default = (Ok tt, t') /\
             getitem t' "" = Ok (Val 7) /\
             contains t' "" = Ok true.
Proof.
  split; [reflexivity |]. split; [vm_compute; discriminate |].
  apply (empty_key_accepted None table_default 7); [reflexivity | vm_compute; discriminate].
Defined.


Lemma reachable_abc : reachable (after abc table_5_13).
Proof.
  apply (reach_setitem "c" 3 (after [setitem "a" 1; setitem "b" 2] table_5_13)).
  apply (reach_setitem "b" 2 (after [setitem "a" 1] table_5_13)).
  apply (reach_setitem "a" 1 table_5_13).
  apply (reach_init (Some [5; 13])); [| reflexivity].
  repeat constructor.
Defined.

Lemma set_then_get_witness :
  reachable (after abc table_5_13) /\
  setitem "d" 4 (after abc table_5_13)
    = (Ok tt, snd (setitem "d" 4 (after abc table_5_13))) /\
  getitem (snd (setitem "d" 4 (after abc table_5_13))) "d" = Ok (Val 4).
Proof.
  split; [exact reachable_abc |]. split; [reflexivity |].
  apply (set_then_get "d" 4 (after abc table_5_13)); [exact reachable_abc | reflexivity].
Defined.

Lemma load_factor_after_set_witness :
  setitem "d" 4 (after abc table_5_13)
    = (Ok tt, snd (setitem "d" 4 (after abc table_5_13))) /\
  3 * len (snd (setitem "d" 4 (after abc table_5_13)))
    <= 2 * table_size (snd (setitem "d" 4 (after abc table_5_13))).
Proof.
  split; [reflexivity |].
  apply (load_factor_after_set "d" 4 (after abc table_5_13)). reflexivity.
Defined.

End Scenarios.

(** * Further properties of the probe walk *)

Section ProbeWalk.

Context {V : Type}.
Implicit Types (a : list (item V)) (it x : item V) (key k : string).
Implicit Types (position step p q : Z) (t : table V) (v data : V).

(** X1. On a table of size at least 2, [hash] raises nothing and returns a
    position of the table, whatever the key. *)
Theorem hash_position_in_table t key :
  2 <= table_size t ->
  exists position, hash t key = Ok position /\ 0 <= position < table_size t.
Proof. intros Hm. unfold hash. now apply hash_at_range. Qed.

(** X2. On a table of size 1 the second modulus of [hash] is zero: every
    non-empty key makes [get], [contains], [set] and [delete] raise
    [ZeroDivisionError], and the table stays as it was. *)
Theorem size_one_table_raises t char key data :
  table_size t = 1 ->
  hash t (String char key) = Err ZeroDivisionError /\
  getitem t (String char key) = Err ZeroDivisionError /\
  contains t (String char key) = Err ZeroDivisionError /\
  setitem (String char key) data t = (Err ZeroDivisionError, t) /\
  delitem (String char key) t = (Err ZeroDivisionError, t).
Proof.
  intros Hm.
  assert (Hh : hash t (String char key) = Err ZeroDivisionError).
  { unfold hash, hash_at. rewrite Hm. reflexivity. }
  assert (Hp : forall is_insert,
            hashy_probe t (String char key) is_insert = Err ZeroDivisionError).
  { intros is_insert. unfold hashy_probe. now rewrite Hh. }
  split; [assumption |].
  assert (Hg : getitem t (String char key) = Err ZeroDivisionError).
  { unfold getitem. now rewrite Hp. }
  split; [assumption |]. split; [unfold contains; now rewrite Hg |].
  split.
  - unfold setitem, setitem_with. now rewrite Hp.
  - unfold delitem. now rewrite Hp.
Qed.

(** X3. The position [_hashy_probe] returns lies in the table and holds an item
    the walk stops at: the key's tuple for a lookup; [None], the marker or
    the key's tuple for an insert. *)
Theorem hashy_probe_position t key is_insert q :
  hashy_probe t key is_insert = Ok q ->
  0 <= q < table_size t /\
  exists it, array t !! Z.to_nat q = Some it /\
    match it with
    | PyTuple k _ => k = key
    | _ => is_insert = true
    end.
Proof.
  rewrite hashy_probe_array. intros (it & Hq & Hstop)%probe_array_sound.
  apply array_get_Ok in Hq as [Hq0 Hq]. apply lookup_lt_Some in Hq as Hlt.
  split; [unfold table_size; lia |]. now exists it.
Qed.

(** X4. What [__getitem__] returns is the value of a tuple stored with exactly
    this key: never a piece of the marker, never another key's value. *)
Theorem getitem_returns_stored_value t key (o : pyobj V) :
  getitem t key = Ok o ->
  exists (i : nat) v, o = Val v /\ array t !! i = Some (PyTuple key v).
Proof.
  intros (q & v & -> & _ & [_ Hq]%array_get_Ok)%getitem_inv.
  now exists (Z.to_nat q), v.
Qed.

Lemma array_get_in_range a p :
  0 <= p < Z.of_nat (length a) -> exists it, array_get a p = Ok it.
Proof.
  intros Hp. destruct (lookup_lt_is_Some_2 a (Z.to_nat p)) as [it Hit]; [lia |].
  exists it. apply array_get_Ok. split; [lia | exact Hit].
Qed.

Lemma walk_next (m position step : Z) (i : nat) :
  ((position + step) mod m + Z.of_nat i * step) mod m
  = (position + Z.of_nat (S i) * step) mod m.
Proof.
  rewrite Zplus_mod_idemp_l. f_equal. lia.
Qed.

(** The positions of a walk that falls out of its loop: the [i]-th is
    [(position + i * step) mod table_size], and each holds an item the walk
    passes. *)
Lemma probe_loop_exhausted a key is_insert step (n : nat) :
  forall position,
  0 <= position < Z.of_nat (length a) ->
  probe_loop n a key is_insert step position = Err FullError ->
  forall i : nat, (i < n)%nat ->
  exists it,
    array_get a ((position + Z.of_nat i * step) mod Z.of_nat (length a)) = Ok it /\
    walks_past key is_insert it.
Proof.
  induction n as [| n IH]; intros position Hp H i Hi; [lia |].
  destruct (array_get_in_range a position Hp) as [it Hit].
  simpl in H. rewrite Hit in H. simpl in H.
  assert (Hnext : 0 <= (position + step) mod Z.of_nat (length a) < Z.of_nat (length a))
    by (apply Z.mod_pos_bound; lia).
  assert (Hpass : walks_past key is_insert it /\
            probe_loop n a key is_insert step
              ((position + step) mod Z.of_nat (length a)) = Err FullError).
  { destruct it as [| | k v]; simpl.
    - now destruct is_insert.
    - now destruct is_insert.
    - destruct (String.eqb_spec k key); [discriminate | now split]. }
  destruct Hpass as [Hpass Hrest].
  destruct i as [| i].
  - exists it. rewrite Z.mul_0_l, Z.add_0_r, Z.mod_small by lia. now split.
  - rewrite <- walk_next. apply IH; [assumption | assumption | lia].
Qed.

(** Conversely, a walk over items it passes falls out of its loop. *)
Lemma probe_loop_all_pass a key is_insert step (n : nat) :
  (forall p it, array_get a p = Ok it -> walks_past key is_insert it) ->
  forall position,
  0 <= position < Z.of_nat (length a) ->
  probe_loop n a key is_insert step position = Err FullError.
Proof.
  intros Hall. induction n as [| n IH]; intros position Hp; [reflexivity |].
  destruct (array_get_in_range a position Hp) as [it Hit].
  simpl. rewrite Hit. simpl.
  assert (Hnext : 0 <= (position + step) mod Z.of_nat (length a) < Z.of_nat (length a))
    by (apply Z.mod_pos_bound; lia).
  apply Hall in Hit.
  destruct it as [| | k v]; simpl in Hit.
  - contradiction.
  - subst is_insert. now apply IH.
  - destruct (String.eqb_spec k key); [contradiction | now apply IH].
Qed.

(** With a step coprime to the table size, the walk meets every position
    within [table_size] steps. *)
Lemma walk_covers (m position step target : Z) :
  Z.gcd step m = 1 -> 0 <= position < m -> 0 <= target < m ->
  exists i : nat, (i < Z.to_nat m)%nat /\ (position + Z.of_nat i * step) mod m = target.
Proof.
  intros Hg Hp Ht.
  destruct (Z.gcd_bezout step m 1 Hg) as (u & w & Hb).
  pose proof (Z.mod_pos_bound ((target - position) * u) m ltac:(lia)) as Hi.
  exists (Z.to_nat (((target - position) * u) mod m)). split; [lia |].
  rewrite Z2Nat.id by lia.
  rewrite (Z.mod_eq ((target - position) * u) m) by lia.
  set (c := (target - position) * u / m).
  replace (position + ((target - position) * u - m * c) * step)
    with (target + (- (target - position) * w - c * step) * m).
  - rewrite Z_mod_plus_full. apply Z.mod_small. lia.
  - assert (Hus : u * step = 1 - w * m) by lia.
    transitivity (position + (target - position) * (u * step) - m * c * step); [| ring].
    rewrite Hus. ring.
Qed.

(** From a position of the table, the loop raises [FullError], or
    [KeyError] in a lookup, and nothing else. *)
Lemma probe_loop_errors a key is_insert step (n : nat) e :
  forall position,
  0 <= position < Z.of_nat (length a) ->
  probe_loop n a key is_insert step position = Err e ->
  e = FullError \/ (e = KeyError /\ is_insert = false).
Proof.
  induction n as [| n IH]; intros position Hp H; [injection H as <-; now left |].
  destruct (array_get_in_range a position Hp) as [it Hit].
  simpl in H. rewrite Hit in H. simpl in H.
  assert (Hnext : 0 <= (position + step) mod Z.of_nat (length a) < Z.of_nat (length a))
    by (apply Z.mod_pos_bound; lia).
  destruct it as [| | k v].
  - destruct is_insert; [discriminate |]. injection H as <-. now right.
  - destruct is_insert; [discriminate | now apply IH in H].
  - destruct (String.eqb_spec k key); [discriminate | now apply IH in H].
Qed.

(** On a table of prime size, the walk as [_hashy_probe] starts it. *)
Lemma hashy_probe_prime t key is_insert :
  Z.prime (table_size t) ->
  exists position step,
    0 <= position < table_size t /\ Z.gcd step (table_size t) = 1 /\
    hashy_probe t key is_insert
      = probe_loop (length (array t)) (array t) key is_insert step position.
Proof.
  intros Hprime. pose proof (Z.prime_ge_2 _ Hprime) as Hm.
  destruct (hash_at_range (table_size t) key Hm) as (position & Hh & Hp).
  pose proof (hash2_at_spec (table_size t) key Hm) as Hh2.
  pose proof (step_spec_range (table_size t) key Hm) as Hs.
  exists position, (step_spec (table_size t) key).
  split; [assumption |]. split.
  - rewrite Z.gcd_comm. apply Z.coprime_prime_small; [assumption | lia].
  - unfold hashy_probe, hash, hash2. now rewrite Hh, Hh2.
Qed.

Lemma probe_FullError_walks t key is_insert :
  Z.prime (table_size t) ->
  hashy_probe t key is_insert = Err FullError <->
  forall (i : nat) it, array t !! i = Some it -> walks_past key is_insert it.
Proof.
  intros Hprime.
  destruct (hashy_probe_prime t key is_insert Hprime)
    as (position & step & Hp & Hg & ->).
  unfold table_size in Hp, Hg. split.
  - intros H i it Hi. apply lookup_lt_Some in Hi as Hlt.
    destruct (walk_covers (Z.of_nat (length (array t))) position step (Z.of_nat i))
      as (j & Hj & Hwalk); [assumption | assumption | lia |].
    destruct (probe_loop_exhausted _ _ _ _ _ _ Hp H j) as (it' & Hit' & Hpass); [lia |].
    rewrite Hwalk, (array_get_of_nat _ _ _ Hi) in Hit'. now injection Hit' as <-.
  - intros Hall. apply probe_loop_all_pass; [| assumption].
    intros p it [_ Hit]%array_get_Ok. exact (Hall _ _ Hit).
Qed.

(** X5. On a table of prime size, [_hashy_probe] raises [FullError] exactly
    when no position stops the walk: for an insert, every position holds
    another key's tuple; for a lookup, every position holds the marker or
    another key's tuple. *)
Theorem probe_raises_FullError_iff t key is_insert :
  Z.prime (table_size t) ->
  hashy_probe t key is_insert = Err FullError <->
  forall (i : nat) it, array t !! i = Some it ->
    match it with
    | PyNone => False
    | PyDeleted => is_insert = false
    | PyTuple k _ => k <> key
    end.
Proof. intros Hprime. exact (probe_FullError_walks t key is_insert Hprime). Qed.

(** X6. On a table of prime size with a [None] somewhere, [get] returns a
    stored value or raises [KeyError], never [FullError], and [contains]
    returns a boolean. *)
Theorem lookup_with_empty_position t key (i : nat) :
  Z.prime (table_size t) -> array t !! i = Some PyNone ->
  ((exists v, getitem t key = Ok (Val v)) \/ getitem t key = Err KeyError) /\
  (exists b, contains t key = Ok b).
Proof.
  intros Hprime Hi.
  assert (Hg : (exists v, getitem t key = Ok (Val v)) \/ getitem t key = Err KeyError).
  { destruct (hashy_probe t key false) as [q | e] eqn:Hprobe.
    - left. rewrite hashy_probe_array in Hprobe.
      destruct (probe_array_sound _ _ _ _ Hprobe) as (it & Hq & Hstop).
      destruct it as [| | k v]; simpl in Hstop; [discriminate | discriminate |].
      subst k. exists v. eapply getitem_found; [| exact Hq].
      now rewrite hashy_probe_array.
    - right.
      destruct (hashy_probe_prime t key false Hprime) as (position & step & Hp & _ & Heq).
      pose proof Hprobe as Hloop. rewrite Heq in Hloop.
      apply probe_loop_errors in Hloop as [-> | [-> _]]; [| | exact Hp].
      + destruct (proj1 (probe_FullError_walks t key false Hprime) Hprobe _ _ Hi).
      + unfold getitem. now rewrite Hprobe. }
  split; [assumption |]. unfold contains.
  destruct Hg as [[v ->] | ->]; eauto.
Qed.

(** X7. On a table of prime size with a [None] or a marker somewhere, the insert
    walk finds a position: [set] does not raise out of its probe. *)
Theorem insert_finds_free_position t key (i : nat) it :
  Z.prime (table_size t) -> array t !! i = Some it ->
  it = PyNone \/ it = PyDeleted ->
  exists q, hashy_probe t key true = Ok q.
Proof.
  intros Hprime Hi Hfree.
  destruct (hashy_probe t key true) as [q | e] eqn:Hprobe; [now exists q |].
  destruct (hashy_probe_prime t key true Hprime) as (position & step & Hp & _ & Heq).
  pose proof Hprobe as Hloop. rewrite Heq in Hloop.
  apply probe_loop_errors in Hloop as [-> | [_ [=]]]; [| exact Hp].
  pose proof (proj1 (probe_FullError_walks t key true Hprime) Hprobe _ _ Hi) as Hpass.
  now destruct Hfree as [-> | ->].
Qed.

End ProbeWalk.

(** * Properties kept by insertion and resize *)

(** What holds of the table at each assignment of [__setitem__] and
    [_rehash] holds of the table they leave, whether they return or raise. *)
Section Preserved.

Context {V : Type}.
Variable P : table V -> Prop.

Hypothesis P_written :
  forall t key data q it,
  P t -> hashy_probe t key true = Ok q -> array_get (array t) q = Ok it ->
  P (written t q it key data).

Hypothesis P_index : forall t, P t -> P (set_size_index t (S (size_index t))).

Hypothesis P_fresh :
  forall t m,
  P t -> TABLE_SIZES t !! size_index t = Some m ->
  P (set_count (set_array t (ArrayR m)) 0).

Lemma setitem_with_preserves (rh : table V -> outcome V) key data t :
  (forall t1, P t1 -> P (snd (rh t1))) ->
  P t -> P (snd (setitem_with rh key data t)).
Proof.
  intros Hrh Ht.
  destruct (setitem_with rh key data t) as [r t'] eqn:H. simpl.
  apply setitem_with_cases in H as [(e & _ & _ & ->) | (q & it & Hp & Hq & H)];
    [assumption |].
  pose proof (P_written t key data q it Ht Hp Hq) as Hw.
  destruct H as [(_ & _ & ->) | [(_ & _ & _ & ->) | (_ & _ & H)]];
    [assumption | assumption |].
  apply Hrh in Hw. now rewrite H in Hw.
Qed.

Lemma reinsert_preserves (set : string -> V -> table V -> outcome V) :
  (forall k v t, P t -> P (snd (set k v t))) ->
  forall old_array t, P t -> P (snd (reinsert set old_array t)).
Proof.
  intros Hset. induction old_array as [| it rest IH]; intros t Ht; simpl; [assumption |].
  destruct it as [| | k v]; [now apply IH | now apply IH |].
  pose proof (Hset k v t Ht) as H1.
  destruct (set k v t) as [[[] | e] t1]; [now apply IH | exact H1].
Qed.

Lemma rehash_fuel_preserves (fuel : nat) :
  forall t, P t -> P (snd (rehash_fuel fuel t)).
Proof.
  induction fuel as [| fuel IH]; intros t Ht; simpl; [assumption |].
  pose proof (P_index t Ht) as H1.
  destruct (Nat.leb_spec (length (TABLE_SIZES t)) (S (size_index t))); [assumption |].
  destruct (TABLE_SIZES t !! S (size_index t)) as [m |] eqn:Hm; [| assumption].
  apply reinsert_preserves.
  - intros k v t1 Ht1. now apply setitem_with_preserves.
  - now apply (P_fresh _ m H1).
Qed.

Lemma setitem_preserves key data t : P t -> P (snd (setitem key data t)).
Proof.
  intros Ht. apply setitem_with_preserves; [| assumption].
  intros t1 Ht1. now apply rehash_fuel_preserves.
Qed.

(** A [_rehash] that returns has gone through the new array: what holds of
    it once fresh and is kept holds at the end. *)
Lemma rehash_fuel_establishes (Q : table V -> Prop) (fuel : nat) t t' :
  (forall m, TABLE_SIZES t !! S (size_index t) = Some m ->
     Q (set_count (set_array (set_size_index t (S (size_index t))) (ArrayR m)) 0)) ->
  (forall k v t1, Q t1 -> Q (snd (setitem_with (rehash_fuel fuel) k v t1))) ->
  rehash_fuel (S fuel) t = (Ok tt, t') -> Q t'.
Proof.
  intros Hfresh Hset H. simpl in H.
  destruct (Nat.leb_spec (length (TABLE_SIZES t)) (S (size_index t))); [discriminate |].
  destruct (TABLE_SIZES t !! S (size_index t)) as [m |]; [| discriminate].
  change t' with (snd (Ok tt, t')). rewrite <- H. clear H.
  generalize (set_count (set_array (set_size_index t (S (size_index t))) (ArrayR m)) 0)
    (Hfresh m eq_refl).
  induction (array t) as [| it rest IH]; intros t1 Ht1; simpl; [assumption |].
  destruct it as [| | k v]; [now apply IH | now apply IH |].
  pose proof (Hset k v t1 Ht1) as H1.
  destruct (setitem_with (rehash_fuel fuel) k v t1) as [[[] | e] t2]; [now apply IH |].
  exact H1.
Qed.

End Preserved.

(** * The count and the stored tuples *)

Section Counting.

Context {V : Type}.
Implicit Types (a : list (item V)) (it x : item V) (key k : string).
Implicit Types (position step p q : Z) (t : table V) (v data : V).

Lemma occupied_insert a (i : nat) it x :
  a !! i = Some it ->
  occupied (<[i := x]> a) = occupied a - occupied [it] + occupied [x].
Proof.
  revert i. induction a as [| y rest IH]; intros i Hi; [now destruct i |].
  destruct i as [| i]; simpl in Hi.
  - injection Hi as ->. destruct it, x; simpl; lia.
  - specialize (IH i Hi). destruct y, it, x; simpl in *; lia.
Qed.

Lemma occupied_bounds a : 0 <= occupied a <= Z.of_nat (length a).
Proof. induction a as [| [| | k v] rest IH]; simpl; lia. Qed.

Lemma occupied_entries a : occupied a = Z.of_nat (length (entries a)).
Proof. induction a as [| [| | k v] rest IH]; simpl; lia. Qed.

Lemma occupied_ArrayR (m : Z) : occupied (ArrayR (V:=V) m) = 0.
Proof. unfold ArrayR. induction (Z.to_nat m) as [| n IH]; simpl; [reflexivity | exact IH]. Qed.

Lemma no_deleted_ArrayR (m : Z) : no_deleted (ArrayR (V:=V) m).
Proof. apply rebuilt_fresh. Qed.

Lemma no_deleted_insert a (i : nat) k v :
  no_deleted a -> no_deleted (<[i := PyTuple k v]> a).
Proof.
  intros Hnd j Hj.
  apply list_lookup_insert_Some in Hj as [(_ & ? & _) | (_ & Hj)];
    [discriminate | now apply Hnd in Hj].
Qed.

Lemma counted_written t key data q it :
  counted t -> hashy_probe t key true = Ok q -> array_get (array t) q = Ok it ->
  counted (written t q it key data).
Proof.
  intros [Hnd Hc] _ [_ Hq]%array_get_Ok. split; simpl.
  - now apply no_deleted_insert.
  - rewrite (occupied_insert _ _ _ _ Hq).
    destruct it as [| | k v]; simpl; [lia | now apply Hnd in Hq | lia].
Qed.

Lemma counted_fresh t (m : Z) : counted (set_count (set_array t (ArrayR m)) 0).
Proof. split; simpl; [apply no_deleted_ArrayR | now rewrite occupied_ArrayR]. Qed.

Lemma counted_setitem key data t : counted t -> counted (snd (setitem key data t)).
Proof.
  apply setitem_preserves.
  - intros; now apply counted_written.
  - intros t1 Ht1. exact Ht1.
  - intros t1 m _ _. apply counted_fresh.
Qed.

(** X8. As long as nothing was deleted, the array holds no marker and [len()]
    is the number of stored tuples. *)
Theorem len_counts_entries_without_deletes t :
  built_by_sets t ->
  (forall i : nat, array t !! i <> Some PyDeleted) /\
  len t = Z.of_nat (length (entries (array t))).
Proof.
  intros Hb.
  assert (Hc : counted t).
  { induction Hb as [sizes t Hi | key data t _ IH].
    - apply init_fresh in Hi as (m & Ha & Hc & _).
      split; rewrite Ha; [apply no_deleted_ArrayR | now rewrite occupied_ArrayR].
    - now apply counted_setitem. }
  destruct Hc as [Hnd Hc]. split; [exact Hnd |].
  unfold len. now rewrite Hc, occupied_entries.
Qed.

(** X9. A [set] that has moved the size index leaves an array without markers,
    a count that is the number of stored tuples, and every stored tuple
    is the one [get] returns for its key. *)
Theorem resize_rebuilds_table key data t t' :
  setitem key data t = (Ok tt, t') ->
  size_index t' <> size_index t ->
  (forall i : nat, array t' !! i <> Some PyDeleted) /\
  len t' = Z.of_nat (length (entries (array t'))) /\
  forall (i : nat) k v, array t' !! i = Some (PyTuple k v) -> getitem t' k = Ok (Val v).
Proof.
  intros H Hidx. unfold setitem in H.
  apply setitem_with_cases in H as [(e & _ & He & _) | (q & it & _ & _ & H)];
    [discriminate |].
  destruct H as [(_ & [=] & _) | [(_ & _ & _ & ->) | (_ & _ & H)]];
    [now contradiction Hidx |].
  unfold rehash, fuel_of in H.
  apply rehash_fuel_spec in H as Hspec. destruct Hspec as [[_ Hfind] _].
  apply rehash_fuel_establishes with (Q := counted) in H as [Hnd Hc].
  - split; [exact Hnd |]. split; [unfold len; now rewrite Hc, occupied_entries |].
    intros i k v Hi. apply array_get_of_nat in Hi.
    eapply getitem_found; [| exact Hi]. rewrite hashy_probe_array. exact (Hfind _ _ _ Hi).
  - intros m _. apply counted_fresh.
  - intros k v t1 Ht1. apply setitem_with_preserves with (P := counted); try assumption.
    + intros; now apply counted_written.
    + intros t2 Ht2. apply rehash_fuel_preserves; try assumption.
      * intros; now apply counted_written.
      * intros t3 Ht3. exact Ht3.
      * intros t3 m _ _. apply counted_fresh.
Qed.

Lemma at_most_setitem key data t :
  count t <= occupied (array t) ->
  count (snd (setitem key data t)) <= occupied (array (snd (setitem key data t))).
Proof.
  apply (setitem_preserves (fun t => count t <= occupied (array t))).
  - intros t1 k v q it Ht1 _ [_ Hq]%array_get_Ok. simpl.
    rewrite (occupied_insert _ _ _ _ Hq). destruct it; simpl; lia.
  - intros t1 Ht1. exact Ht1.
  - intros t1 m _ _. simpl. now rewrite occupied_ArrayR.
Qed.

Lemma at_most_delitem key t :
  count t <= occupied (array t) ->
  count (snd (delitem key t)) <= occupied (array (snd (delitem key t))).
Proof.
  intros Ht. unfold delitem.
  destruct (hashy_probe t key false) as [q | e] eqn:Hp; [| exact Ht].
  rewrite hashy_probe_array in Hp.
  destruct (probe_array_sound _ _ _ _ Hp) as (it & [_ Hq]%array_get_Ok & Hstop).
  simpl. rewrite (occupied_insert _ _ _ _ Hq).
  destruct it; simpl in *; [discriminate | discriminate | lia].
Qed.

(** X10. On every table a client can build, [len()] is at most the number of
    stored tuples, which is at most the table size: the count may fall
    short of the entries, never exceed them. *)
Theorem len_at_most_entries t :
  reachable t ->
  len t <= Z.of_nat (length (entries (array t))) <= table_size t.
Proof.
  intros Hr. rewrite <- occupied_entries. split; [| apply occupied_bounds].
  unfold len. induction Hr as [sizes t _ Hi | key data t _ IH | key t _ IH].
  - apply init_fresh in Hi as (m & -> & -> & _). now rewrite occupied_ArrayR.
  - now apply at_most_setitem.
  - now apply at_most_delitem.
Qed.

Lemma sized_setitem key data t :
  Forall (fun m => 0 < m) (TABLE_SIZES t) /\ 0 < table_size t ->
  Forall (fun m => 0 < m) (TABLE_SIZES (snd (setitem key data t))) /\
  0 < table_size (snd (setitem key data t)).
Proof.
  apply (setitem_preserves
           (fun t => Forall (fun m => 0 < m) (TABLE_SIZES t) /\ 0 < table_size t)).
  - intros t1 k v q it Ht1 _ _. now rewrite table_size_written.
  - intros t1 Ht1. exact Ht1.
  - intros t1 m [Hall _] Hm. split; [exact Hall |].
    pose proof (Forall_lookup_1 _ _ _ _ Hall Hm) as Hpos. simpl in Hpos.
    unfold table_size, ArrayR. simpl. rewrite length_replicate. lia.
Qed.

(** X11. While a larger size remains, [is_full()] is false on every table a
    client can build: the load test keeps the count at two thirds of the
    size at most. *)
Theorem not_full_while_sizes_remain t :
  reachable t ->
  (size_index t < length (TABLE_SIZES t))%nat ->
  is_full t = false.
Proof.
  intros Hr Hidx.
  assert (Hpos : Forall (fun m => 0 < m) (TABLE_SIZES t) /\ 0 < table_size t).
  { clear Hidx. induction Hr as [sizes t Hall Hi | key data t _ IH | key t _ IH].
    - unfold init in Hi.
      destruct ((match sizes with Some s => s | None => DEFAULT_TABLE_SIZES end) !! 0%nat)
        as [m |] eqn:Hm; [| discriminate].
      injection Hi as <-. split; [exact Hall |].
      pose proof (Forall_lookup_1 _ _ _ _ Hall Hm) as Hp. simpl in Hp.
      unfold table_size, ArrayR. simpl. rewrite length_replicate. lia.
    - now apply sized_setitem.
    - unfold delitem. destruct (hashy_probe t key false); [| exact IH].
      unfold table_size in *. simpl. now rewrite length_insert. }
  apply reachable_inv in Hr as [_ [Hload | Hout]]; [| lia].
  unfold is_full, load_ok, len in *. apply Z.eqb_neq. lia.
Qed.

(** X12. Without a marker in the array, [keys()] and [values()] list the keys
    and the values of the stored tuples, in position order. *)
Theorem keys_values_without_markers t :
  (forall i : nat, array t !! i <> Some PyDeleted) ->
  keys t = Ok (map (fun e => Str (fst e)) (entries (array t))) /\
  values t = Ok (map (fun e => Val (snd e)) (entries (array t))).
Proof.
  unfold keys, values. induction (array t) as [| it rest IH]; intros Hnd; [now split |].
  destruct IH as [IHk IHv]; [intros i; apply (Hnd (S i)) |].
  destruct it as [| | k v]; simpl.
  - now split.
  - now contradiction (Hnd O).
  - rewrite IHk, IHv. now split.
Qed.

End Counting.

(** * Updates, deletions and the other keys *)

Section Updates.

Context {V : Type}.
Implicit Types (a : list (item V)) (it x : item V) (key k : string).
Implicit Types (position step p q : Z) (t : table V) (v data : V).

(** After [(key, v)] is written where the insert walk stopped, the insert
    walk stops there again. *)
Lemma probe_loop_insert_again a key v step (n : nat) q :
  forall position,
  probe_loop n a key true step position = Ok q ->
  probe_loop n (<[Z.to_nat q := PyTuple key v]> a) key true step position = Ok q.
Proof.
  induction n as [| n IH]; intros position H; [discriminate |].
  destruct (probe_loop_sound _ _ _ _ _ _ _ H) as (itq & Hq & _).
  assert (Hhere : position = q ->
    probe_loop (S n) (<[Z.to_nat q := PyTuple key v]> a) key true step position = Ok q).
  { intros ->. simpl. rewrite (array_get_insert_eq _ _ _ _ Hq). simpl.
    now rewrite String.eqb_refl. }
  probe_step H it Hit.
  destruct it as [| | k v'].
  - injection H as H. auto.
  - injection H as H. auto.
  - destruct (String.eqb_spec k key) as [-> | Hne].
    + injection H as H. auto.
    + destruct (Z.eq_dec position q) as [Heq | Hpq]; [auto |].
      apply array_get_Ok in Hq as Hq'.
      rewrite array_get_insert_ne by tauto. rewrite Hit. simpl.
      destruct (String.eqb_spec k key); [contradiction |].
      rewrite length_insert. now apply IH.
Qed.

Lemma last_value_present a key v (i : nat) :
  a !! i = Some (PyTuple key v) -> exists v0, last_value a key = Some v0.
Proof.
  intros Hi. destruct (last_value a key) as [v0 |] eqn:Hl; [now exists v0 |].
  now apply last_value_None with (i := i) (v := v) in Hl.
Qed.

Lemma count_nonneg_rehash (fuel : nat) t :
  0 <= count t -> 0 <= count (snd (rehash_fuel fuel t)).
Proof.
  apply (rehash_fuel_preserves (fun t1 : table V => 0 <= count t1)).
  - intros t1 k v q it Ht1 _ _. simpl. destruct (is_none it); lia.
  - intros t1 Ht1. exact Ht1.
  - intros t1 m _ _. simpl. lia.
Qed.

Lemma count_nonneg_setitem_with (fuel : nat) k v t :
  0 <= count t -> 0 <= count (snd (setitem_with (rehash_fuel fuel) k v t)).
Proof.
  apply (setitem_with_preserves (fun t1 : table V => 0 <= count t1)).
  - intros t1 k1 v1 q it Ht1 _ _. simpl. destruct (is_none it); lia.
  - intros t1. apply count_nonneg_rehash.
Qed.

(** A [_rehash] that returns leaves a count that is not negative. *)
Lemma rehash_fuel_count_nonneg (fuel : nat) t t' :
  rehash_fuel fuel t = (Ok tt, t') -> 0 <= count t'.
Proof.
  destruct fuel as [| fuel]; [discriminate |]. intros H.
  apply rehash_fuel_establishes with (Q := fun t1 : table V => 0 <= count t1) in H.
  - exact H.
  - intros m _. simpl. lia.
  - intros k v t1. apply count_nonneg_setitem_with.
Qed.

(** After a [set] that returns, the insert walk for the key stops at a
    tuple of the key, the count is not negative and the load is within
    bounds. *)
Lemma setitem_finds_key key data t t1 :
  setitem key data t = (Ok tt, t1) ->
  0 <= len t1 /\
  3 * len t1 <= 2 * table_size t1 /\
  exists q v0, hashy_probe t1 key true = Ok q /\
               array_get (array t1) q = Ok (PyTuple key v0).
Proof.
  intros H.
  assert (Hload : 3 * len t1 <= 2 * table_size t1).
  { revert H. unfold setitem. apply setitem_with_load.
    intros t2 t2'. unfold rehash. apply rehash_fuel_load. }
  unfold setitem in H.
  apply setitem_with_cases in H as [(e & _ & He & _) | (q & it & Hp & Hq & H)];
    [discriminate |].
  destruct H as [(_ & [=] & _) | [(Hpos & _ & _ & ->) | (_ & _ & H)]].
  - split; [assumption |]. split; [assumption |].
    exists q, data. split; [| simpl; eapply array_get_insert_eq, Hq].
    rewrite hashy_probe_array in *. simpl. unfold probe_array in *.
    rewrite length_insert.
    apply bind_Ok in Hp as (position & -> & (step & -> & Hp)%bind_Ok). simpl.
    now apply probe_loop_insert_again.
  - unfold rehash in H. apply rehash_fuel_count_nonneg in H as Hpos.
    split; [exact Hpos |]. split; [assumption |].
    apply rehash_fuel_spec in H as [[Hnd Hfind] Hkeep].
    apply array_get_Ok in Hq as [Hq0 Hq]. apply lookup_lt_Some in Hq.
    destruct (last_value_present (array (written t q it key data)) key data (Z.to_nat q))
      as [v0 Hl]; [simpl; now apply list_lookup_insert_eq |].
    apply Hkeep, getitem_inv in Hl as (q' & v' & _ & Hp' & Hq').
    exists q', v'. split; [| assumption].
    rewrite hashy_probe_array in *. now apply probe_array_lookup_insert.
Qed.

(** X13. Idempotent update: after a [set(k, v1)] that returns, [set(k, v2)]
    returns too; it changes neither [len()], nor the table size, nor the
    size index, and [get(k)] is [v2]. *)
Theorem update_in_place key v1 v2 t t1 :
  setitem key v1 t = (Ok tt, t1) ->
  exists t2,
    setitem key v2 t1 = (Ok tt, t2) /\
    len t2 = len t1 /\ table_size t2 = table_size t1 /\
    size_index t2 = size_index t1 /\
    getitem t2 key = Ok (Val v2).
Proof.
  intros (Hpos & Hload & q & v0 & Hp & Hq)%setitem_finds_key.
  exists (written t1 q (PyTuple key v0) key v2).
  split; [now apply setitem_no_resize |].
  split; [reflexivity |]. split; [apply table_size_written |].
  split; [reflexivity | now apply written_get_same].
Qed.

Lemma index_above_rehash (n fuel : nat) t :
  (n < size_index t)%nat -> (n < size_index (snd (rehash_fuel fuel t)))%nat.
Proof.
  apply (rehash_fuel_preserves (fun t1 : table V => (n < size_index t1)%nat)).
  - intros t1 k v q it Ht1 _ _. exact Ht1.
  - intros t1 Ht1. simpl. lia.
  - intros t1 m Ht1 _. exact Ht1.
Qed.

Lemma index_above_setitem_with (n fuel : nat) k v t :
  (n < size_index t)%nat ->
  (n < size_index (snd (setitem_with (rehash_fuel fuel) k v t)))%nat.
Proof.
  apply (setitem_with_preserves (fun t1 : table V => (n < size_index t1)%nat)).
  - intros t1 k1 v1 q it Ht1 _ _. exact Ht1.
  - intros t1. apply index_above_rehash.
Qed.

(** A [_rehash] that returns has moved the size index. *)
Lemma rehash_fuel_index_grows (fuel : nat) t t' :
  rehash_fuel fuel t = (Ok tt, t') -> (size_index t < size_index t')%nat.
Proof.
  destruct fuel as [| fuel]; [discriminate |]. intros H.
  apply rehash_fuel_establishes
    with (Q := fun t1 : table V => (size_index t < size_index t1)%nat) in H.
  - exact H.
  - intros m _. simpl. lia.
  - intros k v t1. apply index_above_setitem_with.
Qed.

(** X14. A [set] that does not resize leaves every other key with its value. *)
Theorem set_keeps_other_keys key data t t' k v :
  setitem key data t = (Ok tt, t') ->
  size_index t' = size_index t ->
  k <> key -> getitem t k = Ok (Val v) ->
  getitem t' k = Ok (Val v).
Proof.
  intros H Hidx Hk Hg. unfold setitem in H.
  apply setitem_with_cases in H as [(e & _ & He & _) | (q & it & Hp & Hq & H)];
    [discriminate |].
  destruct H as [(_ & [=] & _) | [(_ & _ & _ & ->) | (_ & _ & H)]];
    [now apply written_get_other |].
  unfold rehash in H. apply rehash_fuel_index_grows in H. simpl in H. lia.
Qed.

(** X15. A [delete] that returns has taken one from [len()], left the table
    size alone, and every other key with its value: the marker keeps the
    walks of the other keys going. *)
Theorem delete_keeps_other_keys key t t' :
  delitem key t = (Ok tt, t') ->
  len t' = len t - 1 /\ table_size t' = table_size t /\
  forall k v, k <> key -> getitem t k = Ok (Val v) -> getitem t' k = Ok (Val v).
Proof.
  unfold delitem. destruct (hashy_probe t key false) as [q | e] eqn:Hp; [| discriminate].
  intros [= <-]. split; [reflexivity |].
  split; [unfold table_size; simpl; now rewrite length_insert |].
  intros k v Hk (q' & v' & [= <-] & Hp' & Hq')%getitem_inv.
  rewrite hashy_probe_array in Hp, Hp'.
  destruct (probe_array_sound _ _ _ _ Hp) as (it & Hq & Hstop).
  assert (Hnk : ~ holds_key k it) by (destruct it; simpl in *; congruence).
  apply getitem_found with (q := q').
  - rewrite hashy_probe_array. simpl.
    eapply probe_array_lookup_write; try eassumption; [discriminate | now simpl].
  - simpl. rewrite array_get_insert_ne; [assumption | |].
    + apply array_get_Ok in Hq. tauto.
    + intros ->. rewrite Hq in Hq'. injection Hq' as ->. now apply Hnk.
Qed.

Lemma scan_ArrayR (i : nat) (m : Z) : scan i (ArrayR (V:=V) m) = Ok [].
Proof. unfold ArrayR. induction (Z.to_nat m) as [| n IH]; simpl; [reflexivity | exact IH]. Qed.

(** The walk of a fresh table, for either purpose. *)
Lemma fresh_probe sizes t key :
  init sizes = Ok t -> 2 <= table_size t ->
  exists position step,
    hash t key = Ok position /\ hash2 t key = Ok step /\
    0 <= position < table_size t /\ 1 <= step <= table_size t - 1 /\
    hashy_probe t key true = Ok position /\
    hashy_probe t key false = Err KeyError /\
    (forall p, 0 <= p < table_size t -> array_get (array t) p = Ok PyNone).
Proof.
  intros (m & Ha & _ & _)%init_fresh Hm.
  destruct (hash_at_range (table_size t) key Hm) as (position & Hh & Hp).
  pose proof (hash2_at_spec (table_size t) key Hm) as Hh2.
  pose proof (step_spec_range (table_size t) key Hm) as Hs.
  assert (Hnone : forall p, 0 <= p < table_size t -> array_get (array t) p = Ok PyNone).
  { intros p Hr. rewrite Ha. apply array_get_fresh. now rewrite <- Ha. }
  exists position, (step_spec (table_size t) key).
  repeat (split; [assumption || lia |]).
  unfold hashy_probe, hash, hash2. rewrite Hh, Hh2. simpl.
  unfold table_size in Hm. destruct (length (array t)) as [| n]; [lia |]. simpl.
  rewrite (Hnone position Hp). now repeat split.
Qed.

(** X16. A fresh table is empty for every key: [get] and [delete] raise
    [KeyError], [contains] is false, [keys()] and [values()] are empty and
    [len()] is 0. *)
Theorem fresh_table_is_empty sizes t key :
  init sizes = Ok t -> 2 <= table_size t ->
  getitem t key = Err KeyError /\
  contains t key = Ok false /\
  delitem key t = (Err KeyError, t) /\
  keys t = Ok [] /\ values t = Ok [] /\
  len t = 0 /\ is_empty t = true.
Proof.
  intros Hi Hm.
  destruct (fresh_probe sizes t key Hi Hm) as (p & s & _ & _ & _ & _ & _ & Hl & _).
  apply init_fresh in Hi as (m & Ha & Hc & _).
  assert (Hg : getitem t key = Err KeyError) by (unfold getitem; now rewrite Hl).
  split; [assumption |]. split; [unfold contains; now rewrite Hg |].
  split; [unfold delitem; now rewrite Hl |].
  unfold keys, values, len, is_empty. rewrite Ha, Hc, !scan_ArrayR. now repeat split.
Qed.

(** A lookup walk that starts on the marker and comes to [None] next. *)
Lemma probe_loop_marker_then_none a key step position (n : nat) :
  array_get a position = Ok PyDeleted ->
  array_get a ((position + step) mod Z.of_nat (length a)) = Ok PyNone ->
  probe_loop (S (S n)) a key false step position = Err KeyError.
Proof. intros Hd Hn. simpl. rewrite Hd. simpl. now rewrite Hn. Qed.

(** X17. Deletion on a fresh table: after [set(k, v); delete(k)], [get(k)]
    raises [KeyError], [contains(k)] is false and [len()] is 0 again. *)
Theorem set_delete_on_fresh_table sizes t key data :
  init sizes = Ok t -> 2 <= table_size t ->
  exists t1 t2,
    setitem key data t = (Ok tt, t1) /\ delitem key t1 = (Ok tt, t2) /\
    getitem t2 key = Err KeyError /\ contains t2 key = Ok false /\
    len t2 = 0 /\ is_empty t2 = true.
Proof.
  intros Hi Hm.
  destruct (fresh_probe sizes t key Hi Hm)
    as (p & s & Hh & Hh2 & Hp & Hs & Hins & _ & Hnone).
  apply init_fresh in Hi as (m & Ha & Hc & _).
  pose proof (Hnone p Hp) as Hq.
  set (t1 := written t p PyNone key data).
  assert (Hs1 : setitem key data t = (Ok tt, t1)).
  { apply setitem_no_resize; [assumption | assumption | |];
      unfold len, table_size in *; simpl; lia. }
  assert (Hp1 : hashy_probe t1 key false = Ok p).
  { rewrite hashy_probe_array in *. now apply probe_array_insert_lookup. }
  pose proof (delitem_found key t1 p Hp1) as Hd1.
  set (t2 := mkTable (TABLE_SIZES t1) (size_index t1)
               (<[Z.to_nat p := PyDeleted]> (array t1)) (count t1 - 1)) in *.
  exists t1, t2. split; [assumption |]. split; [assumption |].
  assert (Hlen : length (array t2) = length (array t))
    by (simpl; now rewrite !length_insert).
  assert (Hg : getitem t2 key = Err KeyError).
  { unfold getitem, hashy_probe, hash, hash2, table_size. rewrite Hlen.
    unfold hash, hash2 in Hh, Hh2. unfold table_size in *. rewrite Hh, Hh2. simpl bind.
    pose proof (probe_advances _ s p Hs Hp) as Hadv.
    pose proof (Z.mod_pos_bound (p + s) (Z.of_nat (length (array t))) ltac:(lia)) as Hnext.
    destruct (length (array t)) as [| [| n]] eqn:Hn; [lia | lia |].
    rewrite (probe_loop_marker_then_none _ key s p n); [reflexivity | |].
    - eapply array_get_insert_eq, array_get_insert_eq, Hq.
    - rewrite !length_insert, Hn. rewrite !array_get_insert_ne by lia.
      now apply Hnone. }
  split; [assumption |]. split; [unfold contains; now rewrite Hg |].
  unfold len, is_empty. simpl. rewrite Hc. now split.
Qed.

End Updates.

(** * The further properties at concrete tables *)

Section MoreScenarios.

Lemma prime_5 : Z.prime 5.
Proof.
  split; [lia |]. intros n Hn [c Hc].
  assert (Hcases : n = 2 \/ n = 3 \/ n = 4) by lia.
  destruct Hcases as [-> | [-> | ->]]; lia.
Defined.

Lemma built_abc : built_by_sets (after abc table_5_13).
Proof.
  apply (built_setitem "c" 3 (after [setitem "a" 1; setitem "b" 2] table_5_13)).
  apply (built_setitem "b" 2 (after [setitem "a" 1] table_5_13)).
  apply (built_setitem "a" 1 table_5_13).
  apply (built_init (Some [5; 13])). reflexivity.
Defined.

Lemma no_marker_abc : forall i : nat, array (after abc table_5_13) !! i <> Some PyDeleted.
Proof. intros i. do 5 (destruct i as [| i]; [discriminate |]). discriminate. Defined.

Lemma hash_position_in_table_witness :
  2 <= table_size table_default /\
  exists position,
    hash table_default "key" = Ok position /\ 0 <= position < table_size table_default.
Proof.
  split; [vm_compute; discriminate |].
  apply (hash_position_in_table table_default "key"). vm_compute. discriminate.
Defined.

Lemma size_one_table_raises_witness :
  table_size table_1_5 = 1 /\
  hash table_1_5 "a" = Err ZeroDivisionError /\
  getitem table_1_5 "a" = Err ZeroDivisionError /\
  contains table_1_5 "a" = Err ZeroDivisionError /\
  setitem "a" 7 table_1_5 = (Err ZeroDivisionError, table_1_5) /\
  delitem "a" table_1_5 = (Err ZeroDivisionError, table_1_5).
Proof.
  split; [reflexivity |].
  apply (size_one_table_raises table_1_5 "a"%char "" 7). reflexivity.
Defined.

Lemma hashy_probe_position_witness :
  hashy_probe (after abc table_5_13) "b" false = Ok 3 /\
  0 <= 3 < table_size (after abc table_5_13) /\
  exists it, array (after abc table_5_13) !! Z.to_nat 3 = Some it /\
    match it with
    | PyTuple k _ => k = "b"
    | _ => false = true
    end.
Proof.
  split; [reflexivity |].
  apply (hashy_probe_position (after abc table_5_13) "b" false 3). reflexivity.
Defined.

Lemma getitem_returns_stored_value_witness :
  getitem (after abc table_5_13) "b" = Ok (Val 2) /\
  exists (i : nat) v,
    Val 2 = Val v /\ array (after abc table_5_13) !! i = Some (PyTuple "b" v).
Proof.
  split; [reflexivity |].
  apply (getitem_returns_stored_value (after abc table_5_13) "b" (Val 2)). reflexivity.
Defined.

Lemma probe_raises_FullError_iff_witness :
  Z.prime (table_size (after fill_with_markers table_default)) /\
  (hashy_probe (after fill_with_markers table_default) "a" false = Err FullError <->
   forall (i : nat) it, array (after fill_with_markers table_default) !! i = Some it ->
     match it with
     | PyNone => False
     | PyDeleted => false = false
     | PyTuple k _ => k <> "a"
     end).
Proof.
  split; [exact prime_5 |].
  apply (probe_raises_FullError_iff (after fill_with_markers table_default) "a" false).
  exact prime_5.
Defined.

Lemma lookup_with_empty_position_witness :
  Z.prime (table_size (after abc table_5_13)) /\
  array (after abc table_5_13) !! 0%nat = Some PyNone /\
  ((exists v, getitem (after abc table_5_13) "z" = Ok (Val v)) \/
   getitem (after abc table_5_13) "z" = Err KeyError) /\
  (exists b, contains (after abc table_5_13) "z" = Ok b).
Proof.
  split; [exact prime_5 |]. split; [reflexivity |].
  apply (lookup_with_empty_position (after abc table_5_13) "z" 0);
    [exact prime_5 | reflexivity].
Defined.

Lemma insert_finds_free_position_witness :
  Z.prime (table_size (after fill_with_markers table_default)) /\
  array (after fill_with_markers table_default) !! 0%nat = Some PyDeleted /\
  (PyDeleted (V:=Z) = PyNone \/ PyDeleted (V:=Z) = PyDeleted) /\
  exists q, hashy_probe (after fill_with_markers table_default) "z" true = Ok q.
Proof.
  split; [exact prime_5 |]. split; [reflexivity |]. split; [now right |].
  apply (insert_finds_free_position (after fill_with_markers table_default) "z" 0 PyDeleted);
    [exact prime_5 | reflexivity | now right].
Defined.

Lemma len_counts_entries_without_deletes_witness :
  built_by_sets (after abc table_5_13) /\
  (forall i : nat, array (after abc table_5_13) !! i <> Some PyDeleted) /\
  len (after abc table_5_13) = Z.of_nat (length (entries (array (after abc table_5_13)))).
Proof.
  split; [exact built_abc |].
  apply (len_counts_entries_without_deletes (after abc table_5_13)). exact built_abc.
Defined.

Lemma resize_rebuilds_table_witness :
  setitem "d" 4 (after abc table_5_13)
    = (Ok tt, snd (setitem "d" 4 (after abc table_5_13))) /\
  size_index (snd (setitem "d" 4 (after abc table_5_13))) <> size_index (after abc table_5_13) /\
  (forall i : nat, array (snd (setitem "d" 4 (after abc table_5_13))) !! i <> Some PyDeleted) /\
  len (snd (setitem "d" 4 (after abc table_5_13)))
    = Z.of_nat (length (entries (array (snd (setitem "d" 4 (after abc table_5_13)))))) /\
  forall (i : nat) k v,
    array (snd (setitem "d" 4 (after abc table_5_13))) !! i = Some (PyTuple k v) ->
    getitem (snd (setitem "d" 4 (after abc table_5_13))) k = Ok (Val v).
Proof.
  split; [reflexivity |]. split; [vm_compute; discriminate |].
  apply (resize_rebuilds_table "d" 4 (after abc table_5_13));
    [reflexivity | vm_compute; discriminate].
Defined.

Lemma len_at_most_entries_witness :
  reachable (after abc table_5_13) /\
  len (after abc table_5_13)
    <= Z.of_nat (length (entries (array (after abc table_5_13))))
    <= table_size (after abc table_5_13).
Proof.
  split; [exact reachable_abc |].
  apply (len_at_most_entries (after abc table_5_13)). exact reachable_abc.
Defined.

Lemma not_full_while_sizes_remain_witness :
  reachable (after abc table_5_13) /\
  (size_index (after abc table_5_13) < length (TABLE_SIZES (after abc table_5_13)))%nat /\
  is_full (after abc table_5_13) = false.
Proof.
  split; [exact reachable_abc |]. split; [vm_compute; lia |].
  apply (not_full_while_sizes_remain (after abc table_5_13));
    [exact reachable_abc | vm_compute; lia].
Defined.

Lemma keys_values_without_markers_witness :
  (forall i : nat, array (after abc table_5_13) !! i <> Some PyDeleted) /\
  keys (after abc table_5_13)
    = Ok (map (fun e => Str (fst e)) (entries (array (after abc table_5_13)))) /\
  values (after abc table_5_13)
    = Ok (map (fun e => Val (snd e)) (entries (array (after abc table_5_13)))).
Proof.
  split; [exact no_marker_abc |].
  apply (keys_values_without_markers (after abc table_5_13)). exact no_marker_abc.
Defined.

Lemma update_in_place_witness :
  setitem "d" 4 (after abc table_5_13)
    = (Ok tt, snd (setitem "d" 4 (after abc table_5_13))) /\
  exists t2,
    setitem "d" 40 (snd (setitem "d" 4 (after abc table_5_13))) = (Ok tt, t2) /\
    len t2 = len (snd (setitem "d" 4 (after abc table_5_13))) /\
    table_size t2 = table_size (snd (setitem "d" 4 (after abc table_5_13))) /\
    size_index t2 = size_index (snd (setitem "d" 4 (after abc table_5_13))) /\
    getitem t2 "d" = Ok (Val 40).
Proof.
  split; [reflexivity |].
  apply (update_in_place "d" 4 40 (after abc table_5_13)). reflexivity.
Defined.

Lemma set_keeps_other_keys_witness :
  setitem "c" 3 (after [setitem "a" 1; setitem "b" 2] table_5_13)
    = (Ok tt, after abc table_5_13) /\
  size_index (after abc table_5_13)
    = size_index (after [setitem "a" 1; setitem "b" 2] table_5_13) /\
  "a" <> "c" /\
  getitem (after [setitem "a" 1; setitem "b" 2] table_5_13) "a" = Ok (Val 1) /\
  getitem (after abc table_5_13) "a" = Ok (Val 1).
Proof.
  split; [reflexivity |]. split; [reflexivity |]. split; [discriminate |].
  split; [reflexivity |].
  apply (set_keeps_other_keys "c" 3 (after [setitem "a" 1; setitem "b" 2] table_5_13)
           (after abc table_5_13) "a" 1);
    [reflexivity | reflexivity | discriminate | reflexivity].
Defined.

Lemma delete_keeps_other_keys_witness :
  delitem "b" (after abc table_5_13) = (Ok tt, snd (delitem "b" (after abc table_5_13))) /\
  len (snd (delitem "b" (after abc table_5_13))) = len (after abc table_5_13) - 1 /\
  table_size (snd (delitem "b" (after abc table_5_13))) = table_size (after abc table_5_13) /\
  forall k v, k <> "b" -> getitem (after abc table_5_13) k = Ok (Val v) ->
    getitem (snd (delitem "b" (after abc table_5_13))) k = Ok (Val v).
Proof.
  split; [reflexivity |].
  apply (delete_keeps_other_keys "b" (after abc table_5_13)). reflexivity.
Defined.

Lemma fresh_table_is_empty_witness :
  init None = Ok table_default /\ 2 <= table_size table_default /\
  getitem table_default "a" = Err KeyError /\
  contains table_default "a" = Ok false /\
  delitem "a" table_default = (Err KeyError, table_default) /\
  keys table_default = Ok [] /\ values table_default = Ok [] /\
  len table_default = 0 /\ is_empty table_default = true.
Proof.
  split; [reflexivity |]. split; [vm_compute; discriminate |].
  apply (fresh_table_is_empty None table_default "a");
    [reflexivity | vm_compute; discriminate].
Defined.

Lemma set_delete_on_fresh_table_witness :
  init None = Ok table_default /\ 2 <= table_size table_default /\
  exists t1 t2,
    setitem "x" 10 table_default = (Ok tt, t1) /\ delitem "x" t1 = (Ok tt, t2) /\
    getitem t2 "x" = Err KeyError /\ contains t2 "x" = Ok false /\
    len t2 = 0 /\ is_empty t2 = true.
Proof.
  split; [reflexivity |]. split; [vm_compute; discriminate |].
  apply (set_delete_on_fresh_table None table_default "x" 10);
    [reflexivity | vm_compute; discriminate].
Defined.

End MoreScenarios.
